(** * yagmail: the [Connect] class of [yagmail/yagmail.py]

    A shallow embedding of the SMTP session object: address resolution,
    content classification, message composition with the per-session
    cache, and the send / retry / resend / close operations.

    Python objects that are mutated through several references (the MIME
    objects held by the cache and attached to messages) live in an explicit
    heap; every externally visible effect (transport calls, [time.sleep],
    log records, HTTP fetches, file reads) is appended to a chronological
    trace.  Exceptions are values of [exn]; a raising call keeps the state
    changes made before the raise, as in Python. *)

From stdpp Require Import gmap strings list pretty.
From Stdlib Require Import Ascii ZArith Lia.

Open Scope string_scope.
Open Scope list_scope.

(** ** Strings *)

(** [sep.join(xs)] *)
Fixpoint join (sep : string) (xs : list string) : string :=
  match xs with
  | [] => ""
  | [x] => x
  | x :: rest => x +:+ sep +:+ join sep rest
  end.

(** [s.split(c)] for a one-character separator: never returns the empty
    list, [''.split('/') == ['']]. *)
Fixpoint split_on (c : ascii) (s : string) : list string :=
  match s with
  | EmptyString => [""]
  | String a s' =>
      if Ascii.eqb a c then "" :: split_on c s'
      else match split_on c s' with
           | h :: t => String a h :: t
           | [] => [String a ""]
           end
  end.

Definition slash : ascii := Ascii.ascii_of_nat 47.
Definition dquote : string := String (Ascii.ascii_of_nat 34) "".

(** [os.path.basename(p)]: what follows the last slash. *)
Definition basename (p : string) : string :=
  List.last (split_on slash p) "".

(** The one-character strings a [str] yields when iterated. *)
Fixpoint chars (s : string) : list string :=
  match s with
  | EmptyString => []
  | String a s' => String a "" :: chars s'
  end.

(** ** Exceptions and the state-and-exception monad *)

Inductive exn : Type :=
| YagConnectionClosed (msg : string)
| YagAddressError
| YagInvalidEmailAddress (addr : string)
| SMTPServerDisconnected
| SMTPException            (* any other exception of the transport *)
| IndexError
| TypeError
| ValueError
| UnboundLocalError
| ParserError.             (* what the optional HTML parser may raise *)

Inductive result (A : Type) : Type :=
| Ok (a : A)
| Raise (e : exn).
Arguments Ok {A} a.
Arguments Raise {A} e.

Definition M (S A : Type) : Type := S → result A * S.

Definition ret {S A} (a : A) : M S A := λ s, (Ok a, s).
Definition raise {S A} (e : exn) : M S A := λ s, (Raise e, s).
Definition bind {S A B} (m : M S A) (k : A → M S B) : M S B :=
  λ s, match m s with
       | (Ok a, s') => k a s'
       | (Raise e, s') => (Raise e, s')
       end.
Definition gets {S A} (f : S → A) : M S A := λ s, (Ok (f s), s).
Definition modify {S} (f : S → S) : M S unit := λ s, (Ok tt, f s).
(** Lifting of a pure computation that may raise. *)
Definition lift {S A} (r : result A) : M S A := λ s, (r, s).

Notation "'do' x <- m ; k" := (bind m (λ x, k))
  (at level 10, x pattern, m at level 100, k at level 200,
   format "'[v' 'do'  x  <-  m ; '/' k ']'").

Definition is_ok {A} (r : result A) : bool :=
  match r with Ok _ => true | Raise _ => false end.

Definition result_map {A B} (f : A → B) (r : result A) : result B :=
  match r with Ok a => Ok (f a) | Raise e => Raise e end.
#[export] Instance result_fmap : FMap result := @result_map.

(** ** Lists as Python lists *)

(** [l.pop(i)]: the element and the shortened list, [IndexError] out of
    range. *)
Definition pop {A} (i : nat) (l : list A) : result (A * list A) :=
  match l !! i with
  | Some x => Ok (x, take i l ++ drop (S i) l)
  | None => Raise IndexError
  end.

(** [l.remove(x)] on a list that contains [x]: drops the first occurrence. *)
Fixpoint remove_first (x : string) (l : list string) : list string :=
  match l with
  | [] => []
  | y :: l' => if String.eqb x y then l' else y :: remove_first x l'
  end.

(** ** The transport ([smtplib.SMTP]), an external collaborator *)

Inductive send_outcome : Type :=
| Accepted (refused : list string)  (* the dict [sendmail] returns *)
| Disconnected                      (* raises [smtplib.SMTPServerDisconnected] *)
| Rejected.                         (* raises any other exception *)

Class Transport (T : Type) : Type := {
  smtp_sendmail : T → string → list string → string → send_outcome * T;
  smtp_quit : T → option exn * T
}.

(** ** Address arguments and the [addresses] dict *)

(** An element of a list or tuple given as [to], [cc] or [bcc]. *)
Inductive addr_elem : Type :=
| EStr (s : string)
| ENotStr.

Inductive addr_arg : Type :=
| AStr (s : string)
| AList (xs : list addr_elem)
| ATuple (xs : list addr_elem)
| ADict (kv : list (string * string))   (* address ↦ display name, in insertion order *)
| AOther.

Definition elem_is_str (e : addr_elem) : bool :=
  match e with EStr _ => true | ENotStr => false end.

Definition elem_strs (xs : list addr_elem) : list string :=
  omap (λ e, match e with EStr s => Some s | ENotStr => None end) xs.

(** The addresses an argument contributes to the recipients. *)
Definition arg_addresses (x : addr_arg) : list string :=
  match x with
  | AStr s => [s]
  | AList xs | ATuple xs => elem_strs xs
  | ADict kv => kv.*1
  | AOther => []
  end.

(** [addresses]: the entry ['recipients'] and the string-valued entries. *)
Record addresses : Type := mkAddresses {
  recipients : list string;
  entries : gmap string string
}.

Definition extend_recipients (xs : list string) (a : addresses) : addresses :=
  mkAddresses (recipients a ++ xs) (entries a).
Definition set_entry (k v : string) (a : addresses) : addresses :=
  mkAddresses (recipients a) (<[k := v]> (entries a)).

Definition _make_addr_alias_target (x : addr_arg) (a : addresses) (which : string)
  : result addresses :=
  match x with
  | AStr s => Ok (set_entry "To" s (extend_recipients [s] a))
  | AList xs | ATuple xs =>
      if forallb elem_is_str xs
      then Ok (set_entry which (join "; " (elem_strs xs))
                 (extend_recipients (elem_strs xs) a))
      else Raise YagAddressError
  | ADict kv =>
      Ok (set_entry which (join "; " (kv.*2)) (extend_recipients (kv.*1) a))
  | AOther => Raise YagAddressError
  end.


(** [_make_addr_alias_user]: the session's own address and display name. *)
Inductive user_arg : Type :=
| UStr (s : string)
| UDict (kv : list (string * string))
| UOther.

Definition _make_addr_alias_user (x : user_arg) : result (string * string) :=
  match x with
  | UStr s => Ok (s, s)
  | UDict [(k, v)] => Ok (k, v)
  | _ => Raise YagAddressError
  end.

(** ** MIME objects *)

(** A MIME part: its type, the [name] parameter when one was given, the
    headers added after construction (in order) and its payload. *)
Record mime_object : Type := mkMime {
  mime_main : string;
  mime_sub : string;
  mime_name : option string;
  mime_headers : list (string * string);
  mime_payload : string
}.

Definition MIMEText (text subtype : string) : mime_object :=
  mkMime "text" subtype None [] text.
Definition MIMEBase (main sub name : string) : mime_object :=
  mkMime main sub (Some name) [] "".
Definition set_payload (p : string) (m : mime_object) : mime_object :=
  mkMime (mime_main m) (mime_sub m) (mime_name m) (mime_headers m) p.
Definition add_header (k v : string) (m : mime_object) : mime_object :=
  mkMime (mime_main m) (mime_sub m) (mime_name m) (mime_headers m ++ [(k, v)])
    (mime_payload m).

(** [msg.get(k)]: the first header of that name. *)
Fixpoint get_header (k : string) (hs : list (string * string)) : option string :=
  match hs with
  | [] => None
  | (k', v) :: rest => if String.eqb k k' then Some v else get_header k rest
  end.

(** The tree the optional HTML parser returns. *)
#[warnings="-register-all"]
Inductive html_tree : Type :=
| Element (tag : string) (children : list html_tree).

Definition tree_tag (t : html_tree) : string :=
  match t with Element tag _ => tag end.
(** [t.find('.//*')]: the first descendant element, if any. *)
Definition find_descendant (t : html_tree) : option html_tree :=
  match t with Element _ cs => head cs end.

Inductive fetch_outcome : Type :=
| Fetched (content : string) (content_type : option string)
| FetchError.   (* IOError, ValueError or requests' MissingSchema *)

(** What [msg.as_string()] sees: the parts with their current state. *)
Record rendered : Type := mkRendered {
  r_headers : list (string * string);
  r_preamble : option string;
  r_alternative : list mime_object;
  r_parts : list mime_object
}.

(** The collaborators outside [yagmail.py]: file system, HTTP client, the
    optional [lxml] import ([None] when the import failed), [mimetypes],
    [hash], base64, the serializer of the [email] package, and the helper
    [validate_email_with_regex] of [yagmail/validate.py] ([false] when it
    raises [YagInvalidEmailAddress]). *)
Record Env : Type := mkEnv {
  isfile : string → bool;
  read_file : string → string;
  http_get : string → fetch_outcome;
  lxml_fromstring : option (string → result html_tree);
  guess_type : string → option string * option string;
  py_hash : string → Z;
  b64encode : string → string;
  b64decode : string → string;
  as_string : rendered → string;
  validate_email_with_regex : string → bool
}.

(** [email.encoders.encode_base64]: re-encodes the decoded payload and sets
    a further [Content-Transfer-Encoding] header. *)
Definition encode_base64 (env : Env) (m : mime_object) : mime_object :=
  let orig :=
    match get_header "Content-Transfer-Encoding" (mime_headers m) with
    | Some "base64" => b64decode env (mime_payload m)
    | _ => mime_payload m
    end in
  add_header "Content-Transfer-Encoding" "base64"
    (set_payload (b64encode env orig) m).

(** ** The session *)

(** The dict [_get_mime_object] returns; [mime_object] is a reference into
    the heap.  Every return path of [_get_mime_object] has set the two
    types. *)
Record content_object : Type := mkContent {
  mime_object_ref : nat;
  encoding : option string;
  main_type : string;
  sub_type : string
}.

Inductive event : Type :=
| EvSendmail (from_addr : string) (to_addrs : list string) (msg : string)
| EvSleep (seconds : nat)
| EvQuit
| EvLogSent (to_addrs : list string)      (* log.info('Message sent to %s') *)
| EvLogClosed (h p u : string)            (* log.info('Closed SMTP @ %s:%s as %s') *)
| EvLogError (e : exn)                    (* log.error(e) *)
| EvHttpGet (url : string)
| EvReadFile (path : string)
| EvLogDeleted (h p u : string).          (* log.info('Deleted SMTP @ %s:%s as %s') *)

Record Connect (T : Type) : Type := mkConnect {
  user : string;
  username : string;
  host : string;
  port : string;
  is_closed : bool;
  smtp : T;
  cache : gmap string content_object;
  unsent : list (list string * string);
  num_mail_sent : nat;
  heap : list mime_object;     (* the MIME objects allocated so far *)
  trace : list event           (* the effects performed so far *)
}.
Arguments mkConnect {T}.
Arguments user {T}. Arguments username {T}. Arguments host {T}.
Arguments port {T}. Arguments is_closed {T}. Arguments smtp {T}.
Arguments cache {T}. Arguments unsent {T}. Arguments num_mail_sent {T}.
Arguments heap {T}. Arguments trace {T}.

Section Setters.
Context {T : Type}.
Implicit Type c : Connect T.

Definition set_is_closed (b : bool) c : Connect T :=
  mkConnect (user c) (username c) (host c) (port c) b (smtp c) (cache c)
    (unsent c) (num_mail_sent c) (heap c) (trace c).
Definition set_smtp (t : T) c : Connect T :=
  mkConnect (user c) (username c) (host c) (port c) (is_closed c) t (cache c)
    (unsent c) (num_mail_sent c) (heap c) (trace c).
Definition set_cache (k : gmap string content_object) c : Connect T :=
  mkConnect (user c) (username c) (host c) (port c) (is_closed c) (smtp c) k
    (unsent c) (num_mail_sent c) (heap c) (trace c).
Definition set_unsent (u : list (list string * string)) c : Connect T :=
  mkConnect (user c) (username c) (host c) (port c) (is_closed c) (smtp c)
    (cache c) u (num_mail_sent c) (heap c) (trace c).
Definition set_num_mail_sent (n : nat) c : Connect T :=
  mkConnect (user c) (username c) (host c) (port c) (is_closed c) (smtp c)
    (cache c) (unsent c) n (heap c) (trace c).
Definition set_heap (h : list mime_object) c : Connect T :=
  mkConnect (user c) (username c) (host c) (port c) (is_closed c) (smtp c)
    (cache c) (unsent c) (num_mail_sent c) h (trace c).
Definition set_trace (t : list event) c : Connect T :=
  mkConnect (user c) (username c) (host c) (port c) (is_closed c) (smtp c)
    (cache c) (unsent c) (num_mail_sent c) (heap c) t.

Definition emit (e : event) : M (Connect T) unit :=
  modify (λ c, set_trace (trace c ++ [e]) c).
(** A new object on the heap; the result is its reference. *)
Definition alloc (m : mime_object) : M (Connect T) nat :=
  λ c, (Ok (length (heap c)), set_heap (heap c ++ [m]) c).
(** In-place change of the object behind a reference. *)
Definition mutate (r : nat) (f : mime_object → mime_object) : M (Connect T) unit :=
  modify (λ c, set_heap (alter f r (heap c)) c).
End Setters.

(** ** Arguments of [send] *)

(** A content item: a string, or a mapping from the source to a name. *)
Inductive content_item : Type :=
| CStr (s : string)
| CDict (kv : list (string * string)).

Inductive contents_arg : Type :=
| ContStr (s : string)
| ContList (items : list content_item).

Inductive subject_arg : Type :=
| SubjStr (s : string)
| SubjList (words : list string).

(** The message under construction: its headers, the preamble, the texts
    attached to the alternative part and the references attached to the
    message itself, in order. *)
Record message : Type := mkMessage {
  msg_headers : list (string * string);
  msg_preamble : option string;
  msg_alternative : list mime_object;
  msg_parts : list nat
}.

Definition msg_set (k v : string) (m : message) : message :=
  mkMessage (msg_headers m ++ [(k, v)]) (msg_preamble m) (msg_alternative m)
    (msg_parts m).
Definition msg_set_preamble (p : string) (m : message) : message :=
  mkMessage (msg_headers m) (Some p) (msg_alternative m) (msg_parts m).
Definition alternative_attach (t : mime_object) (m : message) : message :=
  mkMessage (msg_headers m) (msg_preamble m) (msg_alternative m ++ [t])
    (msg_parts m).
Definition msg_attach (r : nat) (m : message) : message :=
  mkMessage (msg_headers m) (msg_preamble m) (msg_alternative m)
    (msg_parts m ++ [r]).

(** What [send] returns: [{}], the preview pair, the dict of [sendmail],
    or [False]. *)
Inductive send_result : Type :=
| RetEmpty
| RetPreview (a : addresses) (msg_string : string)
| RetSent (refused : list string)
| RetFalse.

(** ** The methods of [Connect] *)

Section Methods.
Context {T : Type} `{Transport T} (env : Env).

Local Abbreviation St := (Connect T).

(** The validation loop of [_resolveAddresses].  Python's list iterator
    holds an index [i] into the list it walks, and [remove] shortens that
    same list under it.  [fuel] bounds the iterations; the initial length
    of the list is enough, as [i] grows by one on each. *)
Fixpoint validate_loop (throw_invalid_exception : bool) (fuel i : nat)
    (rcpts : list string) : M St (list string) :=
  match fuel with
  | 0 => ret rcpts
  | S fuel' =>
      match rcpts !! i with
      | None => ret rcpts
      | Some email_addr =>
          if validate_email_with_regex env email_addr
          then validate_loop throw_invalid_exception fuel' (S i) rcpts
          else if throw_invalid_exception
               then raise (YagInvalidEmailAddress email_addr)
               else do _ <- emit (EvLogError (YagInvalidEmailAddress email_addr));
                    validate_loop throw_invalid_exception fuel' (S i)
                      (remove_first email_addr rcpts)
      end
  end.

Definition opt_target (x : option addr_arg) (which : string)
    (a : addresses) : result addresses :=
  match x with
  | Some v => _make_addr_alias_target v a which
  | None => Ok a
  end.

Definition _resolveAddresses (to cc bcc : option addr_arg)
    (validate_email throw_invalid_exception : bool) : M St addresses :=
  do u <- gets user;
  do un <- gets username;
  let a0 := mkAddresses [] ∅ in
  do a1 <- lift (match to, cc, bcc with
                 | Some t, _, _ => _make_addr_alias_target t a0 "to"
                 | None, Some _, Some _ =>
                     _make_addr_alias_target (AList [EStr u; EStr un]) a0 "to"
                 | None, _, _ => Ok (extend_recipients [u] a0)
                 end);
  do a2 <- lift (opt_target cc "cc" a1);
  do a3 <- lift (opt_target bcc "bcc" a2);
  if validate_email
  then do r <- validate_loop throw_invalid_exception
                 (length (recipients a3)) 0 (recipients a3);
       ret (mkAddresses r (entries a3))
  else ret a3.

(** The literal-text branch of [_get_mime_object]. *)
Definition literal_object (content_string : string) : M St content_object :=
  match lxml_fromstring env with
  | None =>                                   (* NameError *)
      do r <- alloc (MIMEText content_string "plain");
      ret (mkContent r None "text" "plain")
  | Some fromstring =>
      do html_tree <- lift (fromstring content_string);
      if bool_decide (find_descendant html_tree ≠ None)
         || negb (String.eqb (tree_tag html_tree) "p")
      then do r <- alloc (MIMEText content_string "html");
           ret (mkContent r None "text" "html")
      else do r <- alloc (MIMEText content_string "plain");
           ret (mkContent r None "text" "plain")
  end.

(** The tail of [_get_mime_object], after the content has been read or
    fetched: [main_type] is what the response header gave, if anything. *)
Definition typed_object (content_string content_name content : string)
    (types : option (string * string)) : M St content_object :=
  do (enc, types1) <-
    match types with
    | Some _ => ret (None, types)
    | None =>
        let '(content_type, content_encoding) := guess_type env content_string in
        match content_type with
        | None => ret (content_encoding, None)
        | Some ct =>
            match split_on slash ct with
            | [m; s] => ret (content_encoding, Some (m, s))
            | _ => raise ValueError
            end
        end
    end;
  let '(m, s) :=
    match types1, enc with
    | Some ms, None => ms
    | _, _ => ("application", "octet-stream")
    end in
  do r <- alloc (set_payload content (MIMEBase m s content_name));
  ret (mkContent r enc m s).

Definition _get_mime_object (item : content_item) : M St content_object :=
  do (content_string, content_name) <-
    match item with
    | CStr s => ret (s, basename s)
    | CDict [(k, v)] => ret (k, v)
    | CDict _ => raise TypeError
    end;
  if isfile env content_string
  then do _ <- emit (EvReadFile content_string);
       typed_object content_string content_name
         (read_file env content_string) None
  else do _ <- emit (EvHttpGet content_string);
       match http_get env content_string with
       | Fetched content None =>
           typed_object content_string content_name content None
       | Fetched content (Some ct) =>
           match split_on slash ct with
           | [m; s] =>
               typed_object content_string content_name content (Some (m, s))
           | _ => literal_object content_string   (* ValueError, caught *)
           end
       | FetchError => literal_object content_string
       end.

(** One round of the loop of [_prepare_contents]. *)
Definition cached_object (use_cache : bool) (content : content_item)
    : M St content_object :=
  if use_cache
  then match content with
       | CDict _ => raise TypeError           (* a dict is not hashable *)
       | CStr s =>
           do k <- gets cache;
           match k !! s with
           | Some o => ret o
           | None =>
               do o <- _get_mime_object content;
               do _ <- modify (λ c, set_cache (<[s := o]> (cache c)) c);
               ret o
           end
       end
  else _get_mime_object content.

Fixpoint contents_loop (use_cache : bool) (items : list content_item)
    (has_embedded_images : bool) (mime_objects : list content_object)
    : M St (bool * list content_object) :=
  match items with
  | [] => ret (has_embedded_images, mime_objects)
  | content :: rest =>
      do o <- cached_object use_cache content;
      contents_loop use_cache rest
        (if String.eqb (main_type o) "image" then true else has_embedded_images)
        (mime_objects ++ [o])
  end.

Definition _prepare_contents (contents : option contents_arg) (use_cache : bool)
    : M St (bool * list content_object) :=
  match contents with
  | None => ret (false, [])
  | Some (ContStr s) => contents_loop use_cache [CStr s] false []
  | Some (ContList items) => contents_loop use_cache items false []
  end.

Definition _add_subject (subject : option subject_arg) (msg : message) : message :=
  match subject with
  | None | Some (SubjStr "") | Some (SubjList []) => msg
  | Some (SubjStr s) => msg_set "Subject" s msg
  | Some (SubjList ws) => msg_set "Subject" (join " " ws) msg
  end.

Definition set_if_present (a : addresses) (key header : string) (msg : message)
    : message :=
  match entries a !! key with
  | Some v => msg_set header v msg
  | None => msg
  end.

Definition _add_recipients (un : string) (a : addresses) (msg : message) : message :=
  let msg := msg_set "user" un msg in
  let msg := match entries a !! "To" with
             | Some v => msg_set "To" v msg
             | None => msg_set "To" un msg
             end in
  let msg := set_if_present a "cc" "Cc" msg in
  set_if_present a "bcc" "Bcc" msg.

(** What iterating over [contents] yields in [_prepare_message]: for a
    single string, its characters. *)
Definition iter_contents (c : contents_arg) : list content_item :=
  match c with
  | ContStr s => CStr <$> chars s
  | ContList items => items
  end.

Definition img_tag (hashed_ref : string) : string :=
  "<img src=" +:+ dquote +:+ "cid:" +:+ hashed_ref +:+ dquote
    +:+ " title=" +:+ dquote +:+ hashed_ref +:+ dquote +:+ "/>".

(** The loop over [zip(content_objects, contents)]. *)
Fixpoint attach_loop (pairs : list (content_object * content_item))
    (msg : message) : M St message :=
  match pairs with
  | [] => ret msg
  | (content_object, content_string) :: rest =>
      do msg1 <-
        (if String.eqb (main_type content_object) "image"
         then
           do hashed_ref <-
             match content_string with
             | CDict kv =>
                 match List.last (Some <$> kv.*2) None with
                 | Some v => ret v
                 | None => raise UnboundLocalError
                 end
             | CStr s => ret (pretty (Z.abs (py_hash env (basename s))))
             end;
           do _ <- mutate (mime_object_ref content_object)
                     (add_header "Content-ID" ("<" +:+ hashed_ref +:+ ">"));
           do _ <- mutate (mime_object_ref content_object) (encode_base64 env);
           ret (alternative_attach (MIMEText (img_tag hashed_ref) "html") msg)
         else ret msg);
      attach_loop rest (msg_attach (mime_object_ref content_object) msg1)
  end.

Definition _prepare_message (a : addresses) (subject : option subject_arg)
    (contents : option contents_arg) (use_cache : bool) : M St message :=
  do closed <- gets is_closed;
  if closed then raise (YagConnectionClosed "Login required again")
  else
    do (has_embedded_images, content_objects) <- _prepare_contents contents use_cache;
    do un <- gets username;
    let msg := mkMessage [] None [] [] in
    let msg := _add_subject subject msg in
    let msg := _add_recipients un a msg in
    let msg := if has_embedded_images
               then msg_set_preamble
                      "You need a MIME enabled mail reader to see this message." msg
               else msg in
    match contents with
    | None => ret msg
    | Some c => attach_loop (zip content_objects (iter_contents c)) msg
    end.

(** [msg.as_string()]: the serializer reads the attached objects as they
    are on the heap at that moment.  [as_string env] stands for the
    serializer at this one call: the [email] package draws a boundary
    string for each multipart object it serializes, so the strings of two
    compositions are never compared. *)
Definition msg_as_string (msg : message) : M St string :=
  do h <- gets heap;
  ret (as_string env
         (mkRendered (msg_headers msg) (msg_preamble msg) (msg_alternative msg)
            (omap (λ r, h !! r) (msg_parts msg)))).

(** [self.smtp.sendmail(self.user, recipients, msg_string)] *)
Definition sendmail (rcpts : list string) (msg_string : string)
    : M St send_outcome :=
  λ c, let '(o, t) := smtp_sendmail (smtp c) (user c) rcpts msg_string in
       (Ok o, set_trace (trace c ++ [EvSendmail (user c) rcpts msg_string])
                (set_smtp t c)).

(** The [while attempts < 3] loop of [_attempt_send]; [remaining] is
    [3 - attempts], so the loop condition holds exactly when it is not
    zero. *)
Fixpoint attempt_loop (remaining attempts : nat) (rcpts : list string)
    (msg_string : string) : M St send_result :=
  match remaining with
  | 0 =>
      do _ <- modify (λ c, set_unsent (unsent c ++ [(rcpts, msg_string)]) c);
      ret RetFalse
  | S remaining' =>
      do o <- sendmail rcpts msg_string;
      match o with
      | Accepted refused =>
          do _ <- emit (EvLogSent rcpts);
          do _ <- modify (λ c, set_num_mail_sent (num_mail_sent c + 1) c);
          ret (RetSent refused)
      | Disconnected =>
          do _ <- emit (EvLogError SMTPServerDisconnected);
          let attempts := attempts + 1 in
          do _ <- emit (EvSleep (attempts * 3));
          attempt_loop remaining' attempts rcpts msg_string
      | Rejected => raise SMTPException
      end
  end.

Definition _attempt_send (rcpts : list string) (msg_string : string)
    : M St send_result :=
  attempt_loop 3 0 rcpts msg_string.

Definition send (to : option addr_arg) (subject : option subject_arg)
    (contents : option contents_arg) (cc bcc : option addr_arg)
    (preview_only use_cache validate_email throw_invalid_exception : bool)
    : M St send_result :=
  do a <- _resolveAddresses to cc bcc validate_email throw_invalid_exception;
  match recipients a with
  | [] => ret RetEmpty
  | _ :: _ =>
      do msg <- _prepare_message a subject contents use_cache;
      do msg_string <- msg_as_string msg;
      if preview_only then ret (RetPreview a msg_string)
      else _attempt_send (recipients a) msg_string
  end.

(** [send_unsent]: [range(len(self.unsent))] is computed once, [idx] is
    what is left of it. *)
Fixpoint unsent_loop (idx : list nat) : M St unit :=
  match idx with
  | [] => ret tt
  | i :: rest =>
      do q <- gets unsent;
      do ((rcpts, msg_string), q') <- lift (pop i q);
      do _ <- modify (set_unsent q');
      do _ <- _attempt_send rcpts msg_string;
      unsent_loop rest
  end.

Definition send_unsent : M St unit :=
  do q <- gets unsent;
  unsent_loop (seq 0 (length q)).

Definition close : M St unit :=
  do _ <- modify (set_is_closed true);
  do _ <- (λ c, let '(r, t) := smtp_quit (smtp c) in
                let c' := set_trace (trace c ++ [EvQuit]) (set_smtp t c) in
                match r with
                | None => (Ok tt, c')
                | Some e => (Raise e, c')
                end);
  do c <- gets id;
  emit (EvLogClosed (host c) (port c) (user c)).

(** [__del__]: when the object is destroyed, [close] and then the record of
    the deletion; there is no test of [is_closed] before [close]. *)
Definition __del__ : M St unit :=
  do _ <- close;
  do c <- gets id;
  emit (EvLogDeleted (host c) (port c) (user c)).

End Methods.

(** ** Reading a trace *)

Definition sleeps (tr : list event) : list nat :=
  omap (λ e, match e with EvSleep n => Some n | _ => None end) tr.

Definition transmissions (tr : list event) : list (list string * string) :=
  omap (λ e, match e with EvSendmail _ r m => Some (r, m) | _ => None end) tr.

Definition quits (tr : list event) : nat :=
  length (omap (λ e, match e with EvQuit => Some tt | _ => None end) tr).

(** The next [n] calls of [sendmail] with these arguments all raise
    [SMTPServerDisconnected]. *)
Fixpoint disconnects {T} `{Transport T} (n : nat) (t : T) (u : string)
    (rcpts : list string) (msg_string : string) : Prop :=
  match n with
  | 0 => True
  | S n' =>
      (smtp_sendmail t u rcpts msg_string).1 = Disconnected
      ∧ disconnects n' (smtp_sendmail t u rcpts msg_string).2 u rcpts msg_string
  end.

(** One failed round of the loop: the call, the log record, the sleep. *)
Definition failed_round (u : string) (rcpts : list string) (m : string)
    (attempt : nat) : list event :=
  [EvSendmail u rcpts m; EvLogError SMTPServerDisconnected; EvSleep (attempt * 3)].

(** ** A scripted transport and a small environment, for concrete runs *)

(** The transport answers the successive [sendmail] calls from a script
    (and accepts once the script is used up); like [smtplib.SMTP], it raises
    [SMTPServerDisconnected] for a command on a connection that [quit] has
    closed. *)
Record scripted : Type := mkScripted {
  connected : bool;
  script : list send_outcome
}.

#[export] Instance scripted_transport : Transport scripted := {
  smtp_sendmail t _ _ _ :=
    if connected t
    then match script t with
         | [] => (Accepted [], t)
         | o :: rest => (o, mkScripted true rest)
         end
    else (Disconnected, t);
  smtp_quit t :=
    if connected t then (None, mkScripted false (script t))
    else (Some SMTPServerDisconnected, t)
}.

Definition has_at (s : string) : bool :=
  existsb (Ascii.eqb (Ascii.ascii_of_nat 64)) (String.list_ascii_of_string s).

(** A stand-in for the HTML parser on a few sample texts. *)
Definition sample_fromstring (s : string) : result html_tree :=
  if String.eqb s "" then Raise ParserError
  else if String.eqb s "<b>hi</b>" then Ok (Element "b" [])
  else if String.eqb s "hello <b>you</b>"
       then Ok (Element "p" [Element "b" []])
  else Ok (Element "p" []).

Definition sample_guess_type (s : string) : option string * option string :=
  if String.eqb (basename s) "logo.png" then (Some "image/png", None)
  else (None, None).

(** Only [logo.png] is a file, only [http://example.org/logo.png] can be
    fetched, an address is valid when it contains an at sign. *)
Definition sample_env : Env := {|
  isfile := λ p, String.eqb p "logo.png";
  read_file := λ _, "PNGDATA";
  http_get := λ u, if String.eqb u "http://example.org/logo.png"
                   then Fetched "PNGDATA" (Some "image/png")
                   else FetchError;
  lxml_fromstring := Some sample_fromstring;
  guess_type := sample_guess_type;
  py_hash := λ s, Z.of_nat (String.length s);
  b64encode := λ s, "b64(" +:+ s +:+ ")";
  b64decode := λ s, String.substring 4 (String.length s - 5) s;
  as_string := λ r, join "|" ((λ h, h.1 +:+ ": " +:+ h.2) <$> r_headers r);
  validate_email_with_regex := has_at
|}.

Definition session (u un : string) (closed : bool) (t : scripted)
    (q : list (list string * string)) : Connect scripted :=
  mkConnect u un "smtp.gmail.com" "587" closed t ∅ q 0 [] [].

Definition three_disconnects : Connect scripted :=
  session "me@gmail.com" "Me" false
    (mkScripted true [Disconnected; Disconnected; Disconnected]) [].

Definition two_unsent : list (list string * string) :=
  [(["a@x.org"], "M1"); (["b@x.org"], "M2")].

(** Two queued messages, a transport that accepts everything. *)
Definition resend_accepting : Connect scripted :=
  session "me@gmail.com" "Me" false (mkScripted true []) two_unsent.

(** Two queued messages, a transport that keeps disconnecting. *)
Definition resend_failing : Connect scripted :=
  session "me@gmail.com" "Me" false
    (mkScripted true (replicate 6 Disconnected)) two_unsent.

(** A session after [close]: marked closed, its connection gone. *)
Definition closed_session : Connect scripted :=
  session "me@gmail.com" "Me" true (mkScripted false []) [].

(** An open session of a user given as [{'me@gmail.com': 'Me'}]. *)
Definition open_session : Connect scripted :=
  session "me@gmail.com" "Me" false (mkScripted true []) [].

(** [to] given as a list of two addresses. *)
Definition to_list_resolved : result addresses :=
  (_resolveAddresses sample_env (Some (AList [EStr "a@x.org"; EStr "b@x.org"]))
     None None true false open_session).1.

(** [to] and [cc] each given as a single string. *)
Definition cc_string_resolved : result addresses :=
  (_resolveAddresses sample_env (Some (AStr "a@x.org")) (Some (AStr "c@x.org"))
     None true false open_session).1.

(** The headers of the message composed for resolved addresses, without
    subject and contents. *)
Definition composed_headers (r : result addresses)
    : result (list (string * string)) :=
  match r with
  | Ok a => msg_headers <$> (_prepare_message sample_env a None None false open_session).1
  | Raise e => Raise e
  end.

(** [to] given as a list of two addresses that are both invalid. *)
Definition two_invalid : result addresses * Connect scripted :=
  _resolveAddresses sample_env (Some (AList [EStr "bad1"; EStr "bad2"]))
    None None true false open_session.

(** The source a content item names, for the two well-formed shapes. *)
Definition item_source (item : content_item) : option string :=
  match item with
  | CStr s => Some s
  | CDict [(k, _)] => Some k
  | CDict _ => None
  end.

(** The parser, when there is one, returns a tree for this text. *)
Definition parses (env : Env) (s : string) : bool :=
  match lxml_fromstring env with
  | Some f => is_ok (f s)
  | None => true
  end.

(** The specification's reading of the literal-text rule: a text counts as
    markup when its tree is more than a single bare paragraph element; the
    sub-type is [html] for markup when the parser is there, and [plain]
    otherwise. *)
Definition bare_paragraph (t : html_tree) : bool :=
  match t with
  | Element tag [] => String.eqb tag "p"
  | Element _ (_ :: _) => false
  end.

Definition spec_literal_sub_type (env : Env) (s : string) : string :=
  match lxml_fromstring env with
  | None => "plain"
  | Some f =>
      match f s with
      | Ok t => if bare_paragraph t then "plain" else "html"
      | Raise _ => "plain"
      end
  end.

(** A single address that validation drops. *)
Definition dropped_resolved : result addresses * Connect scripted :=
  _resolveAddresses sample_env (Some (AStr "not-an-address")) None None
    true false closed_session.

Definition one_recipient : addresses :=
  mkAddresses ["a@x.org"] (<["To" := "a@x.org"]> ∅).

(** A local image file given with an explicit name, [{'logo.png': 'logo'}]. *)
Definition named_image : contents_arg :=
  ContList [CDict [("logo.png", "logo")]].

(** A remote image given by its URL. *)
Definition remote_image : contents_arg :=
  ContList [CStr "http://example.org/logo.png"].

(** The state after a first cached build with the remote image. *)
Definition after_first_build : Connect scripted :=
  (_prepare_message sample_env one_recipient None (Some remote_image) true
     open_session).2.

(** The same environment after the remote resource has changed. *)
Definition changed_env : Env := {|
  isfile := isfile sample_env;
  read_file := read_file sample_env;
  http_get := λ u, if String.eqb u "http://example.org/logo.png"
                   then Fetched "OTHERDATA" (Some "image/gif")
                   else FetchError;
  lxml_fromstring := lxml_fromstring sample_env;
  guess_type := guess_type sample_env;
  py_hash := py_hash sample_env;
  b64encode := b64encode sample_env;
  b64decode := b64decode sample_env;
  as_string := as_string sample_env;
  validate_email_with_regex := validate_email_with_regex sample_env
|}.

(** ** Frame conditions *)

(** [c'] differs from [c] in nothing the transport side can see: same
    transport state, same unsent queue, same counter of sent messages, and
    no transmission added to the trace. *)
Definition quiet {T} (c c' : Connect T) : Prop :=
  smtp c' = smtp c
  ∧ unsent c' = unsent c
  ∧ num_mail_sent c' = num_mail_sent c
  ∧ transmissions (trace c') = transmissions (trace c).

(** [c'] has the cache of [c]. *)
Definition cache_kept {T} (c c' : Connect T) : Prop :=
  cache c' = cache c.

(** [c'] has every cache entry of [c]. *)
Definition cache_grown {T} (c c' : Connect T) : Prop :=
  cache c ⊆ cache c'.

(** A computation that keeps the final state [R]-related to the initial
    one from every state, whatever it returns or raises. *)
Definition preserves {T A} (R : relation (Connect T)) (m : M (Connect T) A) : Prop :=
  ∀ c, R c (m c).2.

(** Whether one of the content objects is an image. *)
Definition any_image (objs : list content_object) : bool :=
  existsb (λ o, String.eqb (main_type o) "image") objs.

(** Every item is a string. *)
Definition all_strings (items : list content_item) : Prop :=
  Forall (λ item, ∃ s, item = CStr s) items.

(** A preview of a message with a remote image, a markup text and a plain
    text for two recipients and a copy. *)
Definition preview_to : option addr_arg :=
  Some (AList [EStr "a@x.org"; EStr "b@x.org"]).
Definition preview_cc : option addr_arg := Some (AStr "c@x.org").
Definition preview_contents : option contents_arg :=
  Some (ContList [CStr "http://example.org/logo.png"; CStr "hello <b>you</b>";
                  CStr "plain"]).
Definition preview_resolved : result addresses * Connect scripted :=
  _resolveAddresses sample_env preview_to preview_cc None true false open_session.
Definition preview_addresses : addresses :=
  mkAddresses ["a@x.org"; "b@x.org"; "c@x.org"]
    (<["To" := "c@x.org"]> (<["to" := "a@x.org; b@x.org"]> ∅)).
Definition preview_composed : result message * Connect scripted :=
  _prepare_message sample_env preview_addresses (Some (SubjStr "hi"))
    preview_contents true preview_resolved.2.
Definition preview_message : message :=
  mkMessage [("Subject", "hi"); ("user", "Me"); ("To", "c@x.org")]
    (Some "You need a MIME enabled mail reader to see this message.")
    [MIMEText (img_tag "8") "html"] [0; 1; 2].


(** ** Further definitions *)

(** The transport after [n] more calls of [sendmail] with these
    arguments. *)
Fixpoint transport_after {T} `{Transport T} (n : nat) (t : T) (u : string)
    (rcpts : list string) (msg_string : string) : T :=
  match n with
  | 0 => t
  | S n' => transport_after n' (smtp_sendmail t u rcpts msg_string).2 u rcpts msg_string
  end.

(** The sleeps of the first [k] failed rounds: 3, 6, ... *)
Definition backoff (k : nat) : list nat := (λ i, i * 3) <$> seq 1 k.

(** A transport scripted to disconnect twice and then accept. *)
Definition two_disconnects : Connect scripted :=
  session "me@gmail.com" "Me" false
    (mkScripted true [Disconnected; Disconnected; Accepted []]) [].

(** A transport scripted to disconnect once and then refuse the message. *)
Definition disconnect_then_reject : Connect scripted :=
  session "me@gmail.com" "Me" false
    (mkScripted true [Disconnected; Rejected]) [].

(** A transport that accepts every message, and one that has lost its
    server for good. *)
Inductive accepting : Type := Accepting.
Inductive unplugged : Type := Unplugged.

#[export] Instance accepting_transport : Transport accepting := {
  smtp_sendmail t _ _ _ := (Accepted [], t);
  smtp_quit t := (None, t)
}.

#[export] Instance unplugged_transport : Transport unplugged := {
  smtp_sendmail t _ _ _ := (Disconnected, t);
  smtp_quit t := (Some SMTPServerDisconnected, t)
}.

Definition three_unsent : list (list string * string) :=
  [(["a@x.org"], "M1"); (["b@x.org"], "M2"); (["c@x.org"], "M3")].

Definition accepting_session (q : list (list string * string)) : Connect accepting :=
  mkConnect "me@gmail.com" "Me" "smtp.gmail.com" "587" false Accepting ∅ q 0 [] [].

Definition unplugged_session (q : list (list string * string)) : Connect unplugged :=
  mkConnect "me@gmail.com" "Me" "smtp.gmail.com" "587" false Unplugged ∅ q 0 [] [].

(** An argument [_make_addr_alias_target] accepts: a string, a mapping, or
    a list or tuple of strings. *)
Definition well_formed_arg (x : addr_arg) : bool :=
  match x with
  | AStr _ | ADict _ => true
  | AList xs | ATuple xs => forallb elem_is_str xs
  | AOther => false
  end.

Definition well_formed_args (to cc bcc : option addr_arg) : bool :=
  from_option well_formed_arg true to
  && from_option well_formed_arg true cc
  && from_option well_formed_arg true bcc.

(** The recipients that stand for [to]: its own addresses, or the
    defaults of [_resolveAddresses] when it is absent. *)
Definition to_recipients (u un : string) (to cc bcc : option addr_arg)
    : list string :=
  match to, cc, bcc with
  | Some t, _, _ => arg_addresses t
  | None, Some _, Some _ => [u; un]
  | None, _, _ => [u]
  end.

(** The error record the validation loop logs for an address. *)
Definition invalid_logged (a : string) : event :=
  EvLogError (YagInvalidEmailAddress a).

(** The list after [remove] of each of the addresses [bad] in turn. *)
Definition remove_each (bad l : list string) : list string :=
  foldl (λ acc x, remove_first x acc) l bad.

(** A copy list with a tuple that holds something that is not a string. *)
Definition bad_tuple : addr_arg := ATuple [EStr "c@x.org"; ENotStr].

(** Three recipients, the second one invalid. *)
Definition one_invalid : option addr_arg :=
  Some (AList [EStr "a@x.org"; EStr "nobody"; EStr "b@x.org"]).

Definition one_invalid_addresses : addresses :=
  mkAddresses ["a@x.org"; "nobody"; "b@x.org"]
    (<["to" := "a@x.org; nobody; b@x.org"]> ∅).

(** [c'] has the value of [c] for the projection [f]. *)
Definition kept {T B} (f : Connect T → B) : relation (Connect T) :=
  λ c c', f c' = f c.

(** Projections that do not look at the trace, at the heap, at the cache. *)
Definition trace_blind {T B} (f : Connect T → B) : Prop :=
  ∀ t c, f (set_trace t c) = f c.
Definition heap_blind {T B} (f : Connect T → B) : Prop :=
  ∀ h c, f (set_heap h c) = f c.
Definition cache_blind {T B} (f : Connect T → B) : Prop :=
  ∀ k c, f (set_cache k c) = f c.

(** The session [open_session] after [close]. *)
Definition closed_by_close : Connect scripted := (close open_session).2.

(** The headers a message gets from its subject and from an entry of
    [addresses]. *)
Definition subject_headers (subject : option subject_arg) : list (string * string) :=
  match subject with
  | None => []
  | Some (SubjStr s) => if String.eqb s "" then [] else [("Subject", s)]
  | Some (SubjList ws) =>
      match ws with
      | [] => []
      | _ :: _ => [("Subject", join " " ws)]
      end
  end.

Definition entry_header (a : addresses) (key header : string)
    : list (string * string) :=
  match entries a !! key with
  | Some v => [(header, v)]
  | None => []
  end.

(** How many of the content objects are images. *)
Definition count_images (objs : list content_object) : nat :=
  length (List.filter (λ o, String.eqb (main_type o) "image") objs).

Definition preamble_notice : string :=
  "You need a MIME enabled mail reader to see this message.".

(** A remote image and two texts. *)
Definition three_items : list content_item :=
  [CStr "http://example.org/logo.png"; CStr "hello <b>you</b>"; CStr "plain"].

(** Addresses with a copy given as a mapping, and the message composed
    for them with a subject of two words and one plain text. *)
Definition copy_addresses : addresses :=
  mkAddresses ["a@x.org"; "c@x.org"] (<["cc" := "Carl"]> (<["To" := "a@x.org"]> ∅)).
Definition headed_composed : result message * Connect scripted :=
  _prepare_message sample_env copy_addresses (Some (SubjList ["Hello"; "there"]))
    (Some (ContStr "plain")) false open_session.
Definition headed_message : message :=
  mkMessage [("Subject", "Hello there"); ("user", "Me"); ("To", "a@x.org");
             ("Cc", "Carl")] None [] [0].

(** The name a content item gives its MIME part: the explicit name of a
    mapping item, else the basename of the source. *)
Definition item_name (item : content_item) : string :=
  match item with
  | CStr s => basename s
  | CDict [(_, v)] => v
  | CDict _ => ""
  end.

(** An environment with a compressed file and with a server that sends a
    content type without a slash. *)
Definition odd_env : Env := {|
  isfile := λ p, String.eqb p "/tmp/backup.tar.gz";
  read_file := λ _, "GZDATA";
  http_get := λ u, if String.eqb u "http://example.org/odd"
                   then Fetched "BODY" (Some "text")
                   else FetchError;
  lxml_fromstring := None;
  guess_type := λ p, if String.eqb p "/tmp/backup.tar.gz"
                     then (Some "application/x-tar", Some "gzip")
                     else (Some "image/png", None);
  py_hash := py_hash sample_env;
  b64encode := b64encode sample_env;
  b64decode := b64decode sample_env;
  as_string := as_string sample_env;
  validate_email_with_regex := validate_email_with_regex sample_env
|}.

(** The state after a cached classification of [three_items]. *)
Definition after_three_items : Connect scripted :=
  (_prepare_contents sample_env (Some (ContList three_items)) true open_session).2.

Definition three_objects : list content_object :=
  [mkContent 0 None "image" "png"; mkContent 1 None "text" "html";
   mkContent 2 None "text" "plain"].

(** [feedback]: the message goes to the author of the package as the
    contents of a [send]; the result of [send] is dropped. *)
Definition feedback_default : string :=
  "Awesome features! You made my day! How can I contribute? Winter is coming.".

Definition feedback {T} `{Transport T} (env : Env) (message : option contents_arg)
    : M (Connect T) unit :=
  do _ <- send env (Some (AStr "kootenpv@gmail.com")) (Some (SubjStr "Yagmail feedback"))
            message None None false false true false;
  ret tt.

(** What a classification leaves behind: one new MIME object, of the
    types the content object names. *)
Definition allocated {T} (c c' : Connect T) (o : content_object) : Prop :=
  ∃ m, heap c' = heap c ++ [m]
       ∧ mime_object_ref o = length (heap c)
       ∧ mime_main m = main_type o
       ∧ mime_sub m = sub_type o
       ∧ mime_headers m = [].

(** The content-ID [_prepare_message] gives an image: the explicit name
    of a mapping item, else the decimal of the absolute hash of the
    source's basename. *)
Definition content_id (env : Env) (item : content_item) : option string :=
  match item with
  | CStr s => Some (pretty (Z.abs (py_hash env (basename s))))
  | CDict kv => List.last (Some <$> kv.*2) None
  end.

(** The inline text [_prepare_message] puts in the alternative part for a
    pair of [zip(content_objects, contents)]: for an object classified as
    an image, the image tag with the item's content-ID. *)
Definition inline_text (env : Env) (p : content_object * content_item)
    : option mime_object :=
  if String.eqb (main_type p.1) "image"
  then (λ h, MIMEText (img_tag h) "html") <$> content_id env p.2
  else None.

Definition inline_texts (env : Env) (pairs : list (content_object * content_item))
    : list mime_object :=
  omap (inline_text env) pairs.

(** The look-up a classification makes for a source. *)
Definition lookup_event (env : Env) (s : string) : event :=
  if isfile env s then EvReadFile s else EvHttpGet s.

(** ** Proof tools *)

Ltac run :=
  repeat (unfold bind, ret, raise, gets, modify, lift, emit, alloc, mutate,
          sendmail in *; cbn in * ).

(** ** Retry policy of [_attempt_send] *)

Section Retry.
Context {T : Type} `{Transport T}.

Lemma attempt_loop_exhausted (c : Connect T) n rcpts m :
  attempt_loop 0 n rcpts m c
  = (Ok RetFalse, set_unsent (unsent c ++ [(rcpts, m)]) c).
Proof. reflexivity. Qed.

(** A disconnect in a round with [S k] rounds left goes on with [k]. *)
Lemma attempt_loop_disconnected (c : Connect T) k n rcpts m :
  (smtp_sendmail (smtp c) (user c) rcpts m).1 = Disconnected →
  attempt_loop (S k) n rcpts m c
  = attempt_loop k (n + 1) rcpts m
      (set_trace (trace c ++ failed_round (user c) rcpts m (n + 1))
         (set_smtp (smtp_sendmail (smtp c) (user c) rcpts m).2 c)).
Proof.
  intros Hd. cbn [attempt_loop]. unfold bind at 1. unfold sendmail.
  destruct (smtp_sendmail (smtp c) (user c) rcpts m) as [o t] eqn:E.
  cbn in Hd. subst o. run.
  rewrite <- !app_assoc. reflexivity.
Qed.

(** An accepted call ends the loop at once. *)
Lemma attempt_loop_accepted (c : Connect T) k n rcpts m refused :
  (smtp_sendmail (smtp c) (user c) rcpts m).1 = Accepted refused →
  ∃ c', attempt_loop (S k) n rcpts m c = (Ok (RetSent refused), c')
        ∧ transmissions (trace c') = transmissions (trace c) ++ [(rcpts, m)]
        ∧ sleeps (trace c') = sleeps (trace c)
        ∧ unsent c' = unsent c
        ∧ num_mail_sent c' = num_mail_sent c + 1.
Proof.
  intros Ha. cbn [attempt_loop]. unfold bind at 1. unfold sendmail.
  destruct (smtp_sendmail (smtp c) (user c) rcpts m) as [o t] eqn:E.
  cbn in Ha. subst o. run. eexists. split; [reflexivity|]. cbn.
  unfold transmissions, sleeps. rewrite !omap_app. cbn.
  rewrite !app_nil_r. auto.
Qed.
End Retry.

(** C1, as amended: after three consecutive disconnects [_attempt_send] has
    made exactly three transmission attempts and has slept after each of
    them, 3, 6 and then 9 time units (the last one after the third attempt,
    before giving up); it then appends the pair to the unsent queue, leaves
    the counter of sent messages alone and returns [False] without
    raising. *)
Theorem attempt_send_three_disconnects {T} `{Transport T}
    (c : Connect T) (rcpts : list string) (m : string) :
  disconnects 3 (smtp c) (user c) rcpts m →
  ∃ c', _attempt_send rcpts m c = (Ok RetFalse, c')
        ∧ trace c' = trace c ++ failed_round (user c) rcpts m 1
                       ++ failed_round (user c) rcpts m 2
                       ++ failed_round (user c) rcpts m 3
        ∧ unsent c' = unsent c ++ [(rcpts, m)]
        ∧ num_mail_sent c' = num_mail_sent c.
Proof.
  intros (H1 & H2 & H3 & _). unfold _attempt_send.
  rewrite attempt_loop_disconnected by exact H1.
  rewrite attempt_loop_disconnected by exact H2.
  rewrite attempt_loop_disconnected by exact H3.
  rewrite attempt_loop_exhausted. eexists. split; [reflexivity|].
  cbn. rewrite <- !app_assoc. auto.
Qed.

(** The theorem at work on a transport scripted to disconnect three
    times. *)
Lemma attempt_send_three_disconnects_witness :
  disconnects 3 (smtp three_disconnects) (user three_disconnects) ["a@x.org"] "MSG"
  ∧ ∃ c', _attempt_send ["a@x.org"] "MSG" three_disconnects = (Ok RetFalse, c')
          ∧ trace c' = trace three_disconnects
                         ++ failed_round (user three_disconnects) ["a@x.org"] "MSG" 1
                         ++ failed_round (user three_disconnects) ["a@x.org"] "MSG" 2
                         ++ failed_round (user three_disconnects) ["a@x.org"] "MSG" 3
          ∧ unsent c' = unsent three_disconnects ++ [(["a@x.org"], "MSG")]
          ∧ num_mail_sent c' = num_mail_sent three_disconnects.
Proof.
  split.
  - cbn. auto.
  - apply (attempt_send_three_disconnects three_disconnects ["a@x.org"] "MSG").
    cbn. auto.
Defined.

(** C1, as stated, fails: on three disconnects the sleeps are not just 3
    and 6, a third sleep of 9 follows the last attempt. *)
Lemma attempt_send_sleeps_after_last_attempt :
  disconnects 3 (smtp three_disconnects) (user three_disconnects) ["a@x.org"] "MSG"
  ∧ sleeps (trace (_attempt_send ["a@x.org"] "MSG" three_disconnects).2) = [3; 6; 9]
  ∧ sleeps (trace (_attempt_send ["a@x.org"] "MSG" three_disconnects).2) ≠ [3; 6].
Proof.
  split; [cbn; auto|]. split; [reflexivity|]. vm_compute. discriminate.
Qed.

(** ** [send_unsent] *)

Section Resend.
Context {T : Type} `{Transport T}.

(** A transport that accepts every message. *)
Hypothesis accepting :
  ∀ t u r m, ∃ refused, (smtp_sendmail t u r m).1 = Accepted refused.

Lemma attempt_send_accepting (c : Connect T) r m :
  ∃ refused c', _attempt_send r m c = (Ok (RetSent refused), c')
                ∧ unsent c' = unsent c.
Proof.
  destruct (accepting (smtp c) (user c) r m) as [refused Ha].
  destruct (attempt_loop_accepted c 2 0 r m refused Ha) as (c' & Heq & _ & _ & Hu & _).
  eauto.
Qed.

Lemma pop_length {A} (i : nat) (l : list A) x l' :
  pop i l = Ok (x, l') → (i < length l)%nat ∧ S (length l') = length l.
Proof.
  unfold pop. destruct (l !! i) as [y|] eqn:E; [|discriminate].
  intros [= <- <-]. apply lookup_lt_Some in E. split; [done|].
  rewrite length_app, length_take, length_drop. lia.
Qed.

(** Round [i] pops index [i] of a queue that every earlier round has made
    one shorter: with [m] rounds to go the loop runs out of the queue as
    soon as its length is at most [i + 2 (m - 1)]. *)
Lemma unsent_loop_accepting_raises (m i : nat) (c : Connect T) :
  (1 ≤ m)%nat →
  (length (unsent c) ≤ i + 2 * (m - 1))%nat →
  (unsent_loop (seq i m) c).1 = Raise IndexError.
Proof.
  revert i c. induction m as [|m IH]; intros i c Hm Hlen; [lia|].
  cbn [seq unsent_loop]. unfold bind at 1, gets. cbn beta iota.
  destruct (pop i (unsent c)) as [[[r msg] q']|e] eqn:Epop.
  - pose proof (pop_length _ _ _ _ Epop) as [Hi Hq].
    unfold bind at 1, lift. unfold bind at 1, modify. cbn beta iota.
    destruct (attempt_send_accepting (set_unsent q' c) r msg)
      as (refused & c' & Hsend & Hu).
    unfold bind at 1. rewrite Hsend.
    cbn in Hu. apply IH; rewrite ?Hu; lia.
  - unfold bind at 1, lift. cbn.
    unfold pop in Epop. destruct (unsent c !! i); [discriminate|].
    by injection Epop as <-.
Qed.

(** On an accepting transport, [send_unsent] raises [IndexError] for every
    queue of two or more messages. *)
Lemma send_unsent_accepting_raises (c : Connect T) :
  (2 ≤ length (unsent c))%nat →
  (send_unsent c).1 = Raise IndexError.
Proof.
  intros Hlen. unfold send_unsent, bind, gets.
  apply unsent_loop_accepting_raises; lia.
Qed.
End Resend.

(** C2 fails on the code.  [send_unsent] pops index [i] of a queue that the
    earlier rounds have already shortened.  With two queued messages and a
    transport that accepts: the first is sent, then [pop(1)] on the
    one-element queue raises [IndexError], and the second message is never
    attempted.  With a transport that keeps disconnecting: the first
    message is re-queued behind the second, and [pop(1)] takes that same
    message again, so it is attempted twice (six transmissions) and the
    second one never. *)
Theorem send_unsent_two_entries :
  (send_unsent resend_accepting).1 = Raise IndexError
  ∧ transmissions (trace (send_unsent resend_accepting).2) = [(["a@x.org"], "M1")]
  ∧ unsent (send_unsent resend_accepting).2 = [(["b@x.org"], "M2")]
  ∧ (send_unsent resend_failing).1 = Ok tt
  ∧ transmissions (trace (send_unsent resend_failing).2)
    = replicate 6 (["a@x.org"], "M1")
  ∧ unsent (send_unsent resend_failing).2
    = [(["b@x.org"], "M2"); (["a@x.org"], "M1")].
Proof. repeat split; vm_compute; reflexivity. Qed.

(** ** [close] *)

(** [close] has no test of [is_closed]: on every call, also on a session
    that is already closed, it sets the flag and calls the transport's
    [quit]; when [quit] raises, [close] raises the same exception with the
    session marked closed, and otherwise it logs the closing. *)
Lemma close_marks_closed_and_quits {T} `{Transport T} (c : Connect T) :
  is_closed (close c).2 = true
  ∧ smtp (close c).2 = (smtp_quit (smtp c)).2
  ∧ match (smtp_quit (smtp c)).1 with
    | None =>
        (close c).1 = Ok tt
        ∧ trace (close c).2
          = trace c ++ [EvQuit; EvLogClosed (host c) (port c) (user c)]
    | Some e =>
        (close c).1 = Raise e ∧ trace (close c).2 = trace c ++ [EvQuit]
    end.
Proof.
  unfold close. run.
  destruct (smtp_quit (smtp c)) as [[e|] t]; cbn.
  - auto.
  - rewrite <- app_assoc. auto.
Qed.

(** [__del__] is [close] and then the record of the deletion: when [quit]
    raises, so does [__del__], and the deletion is not logged. *)
Lemma del_closes_then_logs {T} `{Transport T} (c : Connect T) :
  match (smtp_quit (smtp c)).1 with
  | None =>
      (__del__ c).1 = Ok tt
      ∧ trace (__del__ c).2
        = trace c ++ [EvQuit; EvLogClosed (host c) (port c) (user c);
                      EvLogDeleted (host c) (port c) (user c)]
  | Some e =>
      (__del__ c).1 = Raise e ∧ trace (__del__ c).2 = trace c ++ [EvQuit]
  end.
Proof.
  unfold __del__, close. run.
  destruct (smtp_quit (smtp c)) as [[e|] t]; cbn.
  - auto.
  - rewrite <- !app_assoc. auto.
Qed.

(** C3 does not hold of the code: closing a session a second time is not a
    no-op.  The second [close] calls [quit] again, and on a transport that,
    like [smtplib.SMTP], refuses commands once the connection is gone, it
    raises.  [__del__] calls [close] too: on a session that is still open
    it closes and logs the deletion, but after an explicit [close] it
    raises and the record of the deletion is never written. *)
Theorem close_twice_raises :
  (close open_session).1 = Ok tt
  ∧ is_closed (close open_session).2 = true
  ∧ (close (close open_session).2).1 = Raise SMTPServerDisconnected
  ∧ quits (trace (close (close open_session).2).2) = 2
  ∧ (__del__ open_session).1 = Ok tt
  ∧ trace (__del__ open_session).2
    = [EvQuit; EvLogClosed "smtp.gmail.com" "587" "me@gmail.com";
       EvLogDeleted "smtp.gmail.com" "587" "me@gmail.com"]
  ∧ (__del__ (close open_session).2).1 = Raise SMTPServerDisconnected
  ∧ trace (__del__ (close open_session).2).2
    = [EvQuit; EvLogClosed "smtp.gmail.com" "587" "me@gmail.com"; EvQuit].
Proof. repeat split; vm_compute; reflexivity. Qed.

(** ** Address resolution *)

(** Whatever its form, an accepted argument appends its addresses, in
    their order, to the recipients. *)
Lemma make_addr_alias_target_recipients x a which a' :
  _make_addr_alias_target x a which = Ok a' →
  recipients a' = recipients a ++ arg_addresses x.
Proof.
  destruct x as [s|xs|xs|kv|]; cbn; try discriminate.
  - intros [= <-]. reflexivity.
  - destruct (forallb elem_is_str xs); [|discriminate]. intros [= <-]. reflexivity.
  - destruct (forallb elem_is_str xs); [|discriminate]. intros [= <-]. reflexivity.
  - intros [= <-]. reflexivity.
Qed.

Lemma opt_target_recipients x which a a' :
  opt_target x which a = Ok a' →
  recipients a' = recipients a ++ from_option arg_addresses [] x.
Proof.
  destruct x as [x|]; cbn.
  - apply make_addr_alias_target_recipients.
  - intros [= <-]. by rewrite app_nil_r.
Qed.

(** Without validation, a call with [cc] and [bcc] but no [to] resolves to
    the user's address, then the user's display name, then the addresses
    of [cc] and of [bcc]. *)
Lemma resolve_cc_bcc_only {T} `{Transport T} env (c : Connect T) cc bcc thr a c' :
  _resolveAddresses env None (Some cc) (Some bcc) false thr c = (Ok a, c') →
  recipients a = [user c; username c] ++ arg_addresses cc ++ arg_addresses bcc
  ∧ c' = c.
Proof.
  unfold _resolveAddresses. run.
  destruct (_make_addr_alias_target cc _ "cc") as [a2|] eqn:E2; cbn; [|discriminate].
  destruct (_make_addr_alias_target bcc _ "bcc") as [a3|] eqn:E3; cbn; [|discriminate].
  intros [= <- <-]. split; [|reflexivity].
  apply make_addr_alias_target_recipients in E2, E3.
  rewrite E3, E2. cbn. by rewrite <- ?app_assoc.
Qed.

(** C4 fails on the code.  With [to] absent and both [cc] and [bcc] given,
    the recipients before [cc] and [bcc] are the two-element list
    [[self.user, self.username]]: for a user given with a display name the
    name itself becomes a recipient, and for a user given as a plain string
    the own address is there twice. *)
Theorem resolve_cc_bcc_self_recipients :
  _make_addr_alias_user (UDict [("me@gmail.com", "Me")]) = Ok ("me@gmail.com", "Me")
  ∧ recipients <$> (_resolveAddresses sample_env None (Some (AStr "c@x.org"))
                      (Some (AStr "b@x.org")) false false open_session).1
    = Ok ["me@gmail.com"; "Me"; "c@x.org"; "b@x.org"]
  ∧ _make_addr_alias_user (UStr "me@gmail.com") = Ok ("me@gmail.com", "me@gmail.com")
  ∧ recipients <$> (_resolveAddresses sample_env None (Some (AStr "c@x.org"))
                      (Some (AStr "b@x.org")) false false
                      (session "me@gmail.com" "me@gmail.com" false
                         (mkScripted true []) [])).1
    = Ok ["me@gmail.com"; "me@gmail.com"; "c@x.org"; "b@x.org"].
Proof. repeat split; vm_compute; reflexivity. Qed.

(** A single string is recorded under the key ['To'], whichever of [to],
    [cc] and [bcc] it was given as; the entry of that argument's own key is
    left as it was. *)
Lemma make_addr_alias_target_str s a which a' :
  _make_addr_alias_target (AStr s) a which = Ok a' →
  entries a' !! "To" = Some s
  ∧ (which ≠ "To" → entries a' !! which = entries a !! which).
Proof.
  cbn. intros [= <-]. cbn. split.
  - apply lookup_insert_eq.
  - intros Hne. by apply lookup_insert_ne.
Qed.

(** A list, tuple or mapping is recorded under the key it was passed
    with: ['to'], ['cc'] or ['bcc']. *)
Lemma make_addr_alias_target_seq x a which a' :
  (∀ s, x ≠ AStr s) →
  _make_addr_alias_target x a which = Ok a' →
  is_Some (entries a' !! which)
  ∧ (which ≠ "To" → entries a' !! "To" = entries a !! "To").
Proof.
  intros Hx.
  destruct x as [s|xs|xs|kv|]; cbn; try discriminate.
  - by destruct (Hx s).
  - destruct (forallb elem_is_str xs); [|discriminate]. intros [= <-]. cbn.
    rewrite lookup_insert_eq. split; [eauto|]. intros. by apply lookup_insert_ne.
  - destruct (forallb elem_is_str xs); [|discriminate]. intros [= <-]. cbn.
    rewrite lookup_insert_eq. split; [eauto|]. intros. by apply lookup_insert_ne.
  - intros [= <-]. cbn.
    rewrite lookup_insert_eq. split; [eauto|]. intros. by apply lookup_insert_ne.
Qed.

(** C5 fails on the code, in its header part (the addresses do reach the
    recipients, see [make_addr_alias_target_recipients]).  A list given as
    [to] is recorded under ['to'], which [_add_recipients] does not read:
    the message's [To] header is the user's display name.  A single string
    given as [cc] is recorded under ['To']: it replaces the [To] header and
    the message gets no [Cc] header. *)
Theorem address_headers_misplaced :
  recipients <$> to_list_resolved = Ok ["a@x.org"; "b@x.org"]
  ∧ (λ a, entries a !! "to") <$> to_list_resolved = Ok (Some "a@x.org; b@x.org")
  ∧ (λ a, entries a !! "To") <$> to_list_resolved = Ok None
  ∧ composed_headers to_list_resolved = Ok [("user", "Me"); ("To", "Me")]
  ∧ recipients <$> cc_string_resolved = Ok ["a@x.org"; "c@x.org"]
  ∧ (λ a, entries a !! "cc") <$> cc_string_resolved = Ok None
  ∧ (λ a, entries a !! "To") <$> cc_string_resolved = Ok (Some "c@x.org")
  ∧ composed_headers cc_string_resolved = Ok [("user", "Me"); ("To", "c@x.org")].
Proof. repeat split; vm_compute; reflexivity. Qed.

(** ** Validation *)

Section Validation.
Context {T : Type} `{Transport T} (env : Env).

Lemma remove_first_length x (l : list string) :
  (length (remove_first x l) ≤ length l)%nat.
Proof.
  induction l as [|y l IH]; cbn; [lia|].
  destruct (String.eqb x y); cbn; lia.
Qed.

(** The loop ends by itself within [length rcpts - i] rounds: any two
    amounts of fuel that large give the same run. *)
Lemma validate_loop_fuel thr (fuel1 fuel2 i : nat) (rcpts : list string)
    (c : Connect T) :
  (length rcpts - i ≤ fuel1)%nat →
  (length rcpts - i ≤ fuel2)%nat →
  validate_loop env thr fuel1 i rcpts c = validate_loop env thr fuel2 i rcpts c.
Proof.
  revert fuel2 i rcpts c.
  induction fuel1 as [|fuel1 IH]; intros [|fuel2] i rcpts c H1 H2; cbn [validate_loop].
  - reflexivity.
  - rewrite (proj2 (lookup_ge_None rcpts i)) by lia. reflexivity.
  - rewrite (proj2 (lookup_ge_None rcpts i)) by lia. reflexivity.
  - destruct (rcpts !! i) as [a|] eqn:Ei; [|reflexivity].
    apply lookup_lt_Some in Ei.
    destruct (validate_email_with_regex env a); [apply IH; lia|].
    destruct thr; [reflexivity|].
    unfold bind, emit, modify.
    pose proof (remove_first_length a rcpts).
    apply IH; lia.
Qed.

(** When every address from index [i] on is valid, the loop changes
    nothing, strict or not. *)
Lemma validate_loop_all_valid thr (fuel i : nat) (rcpts : list string) (c : Connect T) :
  Forall (λ a, validate_email_with_regex env a = true) (drop i rcpts) →
  validate_loop env thr fuel i rcpts c = (Ok rcpts, c).
Proof.
  revert i. induction fuel as [|fuel IH]; intros i Hall; [reflexivity|].
  cbn [validate_loop].
  destruct (rcpts !! i) as [a|] eqn:Ei; [|reflexivity].
  rewrite (drop_S _ _ _ Ei) in Hall. inversion Hall as [|? ? Ha Hrest]; subst.
  rewrite Ha. by apply IH.
Qed.

(** In strict mode the loop raises for the first invalid address from
    index [i] on, whenever there is one. *)
Lemma validate_loop_strict_raises (fuel i : nat) (rcpts : list string) (c : Connect T) :
  (length rcpts - i ≤ fuel)%nat →
  Exists (λ a, validate_email_with_regex env a = false) (drop i rcpts) →
  ∃ a, a ∈ rcpts ∧ validate_email_with_regex env a = false
       ∧ validate_loop env true fuel i rcpts c = (Raise (YagInvalidEmailAddress a), c).
Proof.
  revert i. induction fuel as [|fuel IH]; intros i Hfuel Hex.
  - rewrite drop_ge in Hex by lia. by apply Exists_nil in Hex.
  - cbn [validate_loop].
    destruct (rcpts !! i) as [a|] eqn:Ei.
    + rewrite (drop_S _ _ _ Ei) in Hex.
      destruct (validate_email_with_regex env a) eqn:Ha.
      * apply Exists_cons in Hex as [Hbad|Hex]; [congruence|].
        apply IH; [lia|done].
      * exists a. split; [by eapply list_elem_of_lookup_2|]. done.
    + apply lookup_ge_None in Ei. rewrite drop_ge in Hex by lia.
      by apply Exists_nil in Hex.
Qed.

(** Strict mode at the level of [_resolveAddresses]: when the recipients
    as resolved without validation contain an invalid address, the strict
    call raises the invalid-address error and leaves the session as it
    was. *)
Lemma resolve_strict_raises (c : Connect T) to cc bcc a c0 :
  _resolveAddresses env to cc bcc false true c = (Ok a, c0) →
  Exists (λ x, validate_email_with_regex env x = false) (recipients a) →
  ∃ x, x ∈ recipients a ∧ validate_email_with_regex env x = false
       ∧ _resolveAddresses env to cc bcc true true c
         = (Raise (YagInvalidEmailAddress x), c).
Proof.
  unfold _resolveAddresses, bind, gets, lift, ret.
  destruct (match to, cc, bcc with
            | Some t, _, _ => _make_addr_alias_target t _ "to"
            | None, Some _, Some _ => _
            | None, _, _ => _
            end) as [a1|]; [|discriminate].
  destruct (opt_target cc "cc" a1) as [a2|]; [|discriminate].
  destruct (opt_target bcc "bcc" a2) as [a3|]; [|discriminate].
  intros [= <- <-] Hex.
  destruct (validate_loop_strict_raises (length (recipients a3)) 0
              (recipients a3) c) as (x & Hin & Hbad & Hloop); [lia|done|].
  exists x. rewrite Hloop. done.
Qed.
End Validation.

(** C6 fails on the code, in its non-strict part.  The loop removes an
    invalid address from the list it is iterating over, so the address that
    follows a removed one is never checked: of two invalid addresses the
    second stays in the recipients.  (The strict part holds, see
    [validate_loop_strict_raises].) *)
Theorem invalid_address_survives :
  recipients <$> two_invalid.1 = Ok ["bad2"]
  ∧ validate_email_with_regex sample_env "bad1" = false
  ∧ validate_email_with_regex sample_env "bad2" = false
  ∧ trace two_invalid.2 = [EvLogError (YagInvalidEmailAddress "bad1")].
Proof. repeat split; vm_compute; reflexivity. Qed.

(** ** [send]: nothing to send *)

(** C7: when the resolved recipients are empty, [send] returns the empty
    result straight after address resolution: no exception, and the state
    is the one address resolution left, so nothing was composed (no fetch,
    no cache or heap change, not even the closed-session check). *)
Theorem send_nothing_to_send {T} `{Transport T} env (c : Connect T)
    to subject contents cc bcc preview_only use_cache validate thr a c' :
  _resolveAddresses env to cc bcc validate thr c = (Ok a, c') →
  recipients a = [] →
  send env to subject contents cc bcc preview_only use_cache validate thr c
  = (Ok RetEmpty, c').
Proof.
  intros Hres Hempty. unfold send, bind at 1. rewrite Hres, Hempty. reflexivity.
Qed.

(** The theorem at work: the only address is dropped by validation, on a
    session that is closed, with contents that would need a fetch. *)
Lemma send_nothing_to_send_witness :
  dropped_resolved.1 = Ok (mkAddresses [] (<["To" := "not-an-address"]> ∅))
  ∧ send sample_env (Some (AStr "not-an-address")) (Some (SubjStr "hi"))
      (Some remote_image) None None false true true false closed_session
    = (Ok RetEmpty, dropped_resolved.2).
Proof.
  split; [vm_compute; reflexivity|].
  apply (send_nothing_to_send sample_env closed_session
           (Some (AStr "not-an-address")) (Some (SubjStr "hi"))
           (Some remote_image) None None false true true false
           (mkAddresses [] (<["To" := "not-an-address"]> ∅)) dropped_resolved.2).
  - vm_compute. reflexivity.
  - reflexivity.
Defined.

(** ** Classification of literal text *)

Section Literal.
Context {T : Type} `{Transport T} (env : Env).

(** The code's test on the parsed tree is the specification's. *)
Lemma markup_test_bare_paragraph (t : html_tree) :
  bool_decide (find_descendant t ≠ None) || negb (String.eqb (tree_tag t) "p")
  = negb (bare_paragraph t).
Proof.
  destruct t as [tag [|child rest]]; cbn.
  - reflexivity.
  - reflexivity.
Qed.

Lemma literal_object_spec (c : Connect T) (s : string) :
  parses env s = true →
  literal_object env s c
  = (Ok (mkContent (length (heap c)) None "text" (spec_literal_sub_type env s)),
     set_heap (heap c ++ [MIMEText s (spec_literal_sub_type env s)]) c).
Proof.
  unfold parses, literal_object, spec_literal_sub_type.
  destruct (lxml_fromstring env) as [f|]; [|reflexivity].
  destruct (f s) as [t|e]; [|discriminate]. intros _. run.
  rewrite markup_test_bare_paragraph.
  destruct (bare_paragraph t); reflexivity.
Qed.
End Literal.

(** C8, as amended: an item that is neither an existing file nor fetchable
    is literal text.  When the HTML parser is absent, or is there and
    returns a tree for the text, the item's main type is [text]; without
    the parser its sub-type is [plain]; with the parser it is [html] when
    the parsed text is more than a single bare paragraph element and
    [plain] otherwise.  The MIME object put on the heap is the text with
    that sub-type. *)
Theorem literal_text_classification {T} `{Transport T} env (c : Connect T)
    (item : content_item) (s : string) :
  item_source item = Some s →
  isfile env s = false →
  http_get env s = FetchError →
  parses env s = true →
  _get_mime_object env item c
  = (Ok (mkContent (length (heap c)) None "text" (spec_literal_sub_type env s)),
     set_heap (heap c ++ [MIMEText s (spec_literal_sub_type env s)])
       (set_trace (trace c ++ [EvHttpGet s]) c)).
Proof.
  intros Hsrc Hfile Hget Hparse.
  assert (∃ n, (item = CStr s ∧ n = basename s) ∨ item = CDict [(s, n)]) as [n Hitem].
  { destruct item as [s'|[|[k v] [|]]]; cbn in Hsrc; try discriminate;
      injection Hsrc as <-; eauto. }
  unfold _get_mime_object.
  destruct Hitem as [[-> ->]| ->]; run; rewrite Hfile; run; rewrite Hget;
    rewrite literal_object_spec by done; reflexivity.
Qed.

(** The theorem at work on a text with markup. *)
Lemma literal_text_classification_witness :
  spec_literal_sub_type sample_env "hello <b>you</b>" = "html"
  ∧ spec_literal_sub_type sample_env "hello" = "plain"
  ∧ _get_mime_object sample_env (CStr "hello <b>you</b>") open_session
    = (Ok (mkContent 0 None "text" "html"),
       set_heap [MIMEText "hello <b>you</b>" "html"]
         (set_trace [EvHttpGet "hello <b>you</b>"] open_session)).
Proof.
  split; [reflexivity|]. split; [reflexivity|].
  apply (literal_text_classification sample_env open_session
           (CStr "hello <b>you</b>") "hello <b>you</b>"); reflexivity.
Defined.

(** Only the [NameError] of a missing parser is caught: an exception of
    the parser itself leaves [_get_mime_object], after the failed fetch and
    with no MIME object made. *)
Lemma literal_parser_error_propagates {T} `{Transport T} env (c : Connect T)
    (item : content_item) (s : string) fromstring e :
  item_source item = Some s →
  isfile env s = false →
  http_get env s = FetchError →
  lxml_fromstring env = Some fromstring →
  fromstring s = Raise e →
  _get_mime_object env item c = (Raise e, set_trace (trace c ++ [EvHttpGet s]) c).
Proof.
  intros Hsrc Hfile Hget Hlxml Hraise.
  assert (∃ n, (item = CStr s ∧ n = basename s) ∨ item = CDict [(s, n)]) as [n Hitem].
  { destruct item as [s'|[|[k v] [|]]]; cbn in Hsrc; try discriminate;
      injection Hsrc as <-; eauto. }
  unfold _get_mime_object.
  destruct Hitem as [[-> ->]| ->]; run; rewrite Hfile; run; rewrite Hget;
    unfold literal_object; rewrite Hlxml; run; rewrite Hraise; reflexivity.
Qed.

(** C8, as stated, fails: the empty string is a literal item (no file, not
    fetchable), the parser is there, and the classification returns
    neither [text/html] nor [text/plain]: the parser's exception for an
    empty document comes out of [_get_mime_object]. *)
Lemma literal_empty_text_raises :
  item_source (CStr "") = Some ""
  ∧ isfile sample_env "" = false
  ∧ http_get sample_env "" = FetchError
  ∧ is_Some (lxml_fromstring sample_env)
  ∧ _get_mime_object sample_env (CStr "") open_session
    = (Raise ParserError, set_trace [EvHttpGet ""] open_session).
Proof. repeat split; try (vm_compute; reflexivity). by eexists. Qed.

(** ** Frame: what address resolution and composition leave alone *)

Section Preserves.
Context {T : Type} (R : relation (Connect T)) `{!PreOrder R}.

Lemma preserves_ret {A} (a : A) : preserves R (ret a).
Proof. intros c. reflexivity. Qed.

Lemma preserves_raise {A} e : preserves (A:=A) R (raise e).
Proof. intros c. reflexivity. Qed.

Lemma preserves_gets {A} (f : Connect T → A) : preserves R (gets f).
Proof. intros c. reflexivity. Qed.

Lemma preserves_lift {A} (r : result A) : preserves R (lift r).
Proof. intros c. reflexivity. Qed.

Lemma preserves_bind {A B} (m : M (Connect T) A) (k : A → M (Connect T) B) :
  preserves R m → (∀ a, preserves R (k a)) → preserves R (bind m k).
Proof.
  intros Hm Hk c. unfold bind. specialize (Hm c).
  destruct (m c) as [[a|e] c1]; cbn in *; [|done].
  etrans; [exact Hm|]. apply Hk.
Qed.
End Preserves.

#[export] Instance quiet_preorder {T} : PreOrder (@quiet T).
Proof.
  split.
  - intros c. by repeat split.
  - intros c1 c2 c3 (?&?&?&?) (?&?&?&?). repeat split; congruence.
Qed.

#[export] Instance cache_kept_preorder {T} : PreOrder (@cache_kept T).
Proof.
  split.
  - intros c. reflexivity.
  - intros c1 c2 c3. unfold cache_kept. congruence.
Qed.

#[export] Instance cache_grown_preorder {T} : PreOrder (@cache_grown T).
Proof.
  split.
  - intros c. unfold cache_grown. reflexivity.
  - intros c1 c2 c3. unfold cache_grown. intros ? ?. by etrans.
Qed.

Section Frame.
Context {T : Type} `{Transport T} (env : Env).

(** Any event but a transmission. *)
Lemma quiet_emit (e : event) :
  transmissions [e] = [] → preserves (T:=T) quiet (emit e).
Proof.
  intros He c. repeat split. cbn. unfold transmissions in *.
  rewrite omap_app, He. apply app_nil_r.
Qed.

Lemma quiet_alloc (m : mime_object) : preserves (T:=T) quiet (alloc m).
Proof. intros c. by repeat split. Qed.

Lemma quiet_mutate r f : preserves (T:=T) quiet (mutate r f).
Proof. intros c. by repeat split. Qed.

Lemma quiet_set_cache (f : Connect T → gmap string content_object) :
  preserves quiet (modify (λ c, set_cache (f c) c)).
Proof. intros c. by repeat split. Qed.

Lemma cache_kept_emit (e : event) : preserves (T:=T) cache_kept (emit e).
Proof. intros c. reflexivity. Qed.

Lemma cache_kept_alloc (m : mime_object) : preserves (T:=T) cache_kept (alloc m).
Proof. intros c. reflexivity. Qed.

Lemma cache_kept_mutate r f : preserves (T:=T) cache_kept (mutate r f).
Proof. intros c. reflexivity. Qed.

Create HintDb frame.
#[local] Hint Resolve quiet_alloc quiet_mutate quiet_set_cache
  cache_kept_emit cache_kept_alloc cache_kept_mutate : frame.
#[local] Hint Extern 1 (preserves quiet (emit _)) =>
  (apply quiet_emit; reflexivity) : frame.

(** One step through the monadic structure of a method; what is not a
    combinator is left to the lemmas proved so far. *)
Ltac frame_step :=
  lazymatch goal with
  | |- preserves _ (bind _ _) => apply preserves_bind; [apply _| |intros]
  | |- preserves _ (ret _) => apply preserves_ret; apply _
  | |- preserves _ (raise _) => apply preserves_raise; apply _
  | |- preserves _ (gets _) => apply preserves_gets; apply _
  | |- preserves _ (lift _) => apply preserves_lift; apply _
  | |- preserves _ (match ?x with _ => _ end) => destruct x
  | |- preserves _ _ => solve [eauto with frame]
  end.
Ltac frame := repeat frame_step.

Lemma quiet_validate_loop thr fuel i rcpts :
  preserves (T:=T) quiet (validate_loop env thr fuel i rcpts).
Proof.
  revert i rcpts. induction fuel as [|fuel IH]; intros i rcpts; cbn [validate_loop];
    frame.
Qed.
#[local] Hint Resolve quiet_validate_loop : frame.

Lemma quiet_resolveAddresses to cc bcc validate thr :
  preserves (T:=T) quiet (_resolveAddresses env to cc bcc validate thr).
Proof. unfold _resolveAddresses. frame. Qed.

(** Classification: quiet, and no business with the cache. *)
Lemma literal_object_preserves R s :
  R = quiet ∨ R = cache_kept → preserves (T:=T) R (literal_object env s).
Proof. intros [->| ->]; unfold literal_object; frame. Qed.

Lemma typed_object_preserves R s n content types :
  R = quiet ∨ R = cache_kept → preserves (T:=T) R (typed_object env s n content types).
Proof. intros [->| ->]; unfold typed_object; frame. Qed.

Lemma get_mime_object_preserves R item :
  R = quiet ∨ R = cache_kept → preserves (T:=T) R (_get_mime_object env item).
Proof.
  intros HR.
  pose proof (λ s, literal_object_preserves R s HR).
  pose proof (λ s n content types, typed_object_preserves R s n content types HR).
  destruct HR as [->| ->]; unfold _get_mime_object; frame.
Qed.

Lemma quiet_get_mime_object item :
  preserves (T:=T) quiet (_get_mime_object env item).
Proof. apply get_mime_object_preserves. by left. Qed.

Lemma cache_kept_get_mime_object item :
  preserves (T:=T) cache_kept (_get_mime_object env item).
Proof. apply get_mime_object_preserves. by right. Qed.
#[local] Hint Resolve quiet_get_mime_object : frame.

Lemma quiet_cached_object use_cache item :
  preserves (T:=T) quiet (cached_object env use_cache item).
Proof. unfold cached_object. frame. Qed.
#[local] Hint Resolve quiet_cached_object : frame.

Lemma quiet_contents_loop use_cache items has objs :
  preserves (T:=T) quiet (contents_loop env use_cache items has objs).
Proof.
  revert has objs. induction items as [|item items IH]; intros has objs;
    cbn [contents_loop]; frame.
Qed.
#[local] Hint Resolve quiet_contents_loop : frame.

Lemma quiet_prepare_contents contents use_cache :
  preserves (T:=T) quiet (_prepare_contents env contents use_cache).
Proof. unfold _prepare_contents. frame. Qed.
#[local] Hint Resolve quiet_prepare_contents : frame.

Lemma quiet_attach_loop pairs msg :
  preserves (T:=T) quiet (attach_loop env pairs msg).
Proof.
  revert msg. induction pairs as [|[o item] pairs IH]; intros msg;
    cbn [attach_loop]; frame.
Qed.
#[local] Hint Resolve quiet_attach_loop : frame.

Lemma quiet_prepare_message a subject contents use_cache :
  preserves (T:=T) quiet (_prepare_message env a subject contents use_cache).
Proof. unfold _prepare_message. frame. Qed.

(** Serialization reads the heap and changes nothing. *)
Lemma msg_as_string_pure msg (c : Connect T) :
  ∃ s, msg_as_string env msg c = (Ok s, c).
Proof. unfold msg_as_string. run. eauto. Qed.
End Frame.

(** ** The per-session cache *)

Section Cache.
Context {T : Type} `{Transport T}.

(** A mapping item cannot be looked up in the cache: a dict is not
    hashable. *)
Lemma cached_object_dict_raises env kv (c : Connect T) :
  cached_object env true (CDict kv) c = (Raise TypeError, c).
Proof. reflexivity. Qed.

(** A string item that is in the cache is answered from it, whatever the
    environment has become: no fetch, no read, no state change. *)
Lemma cached_object_hit env s o (c : Connect T) :
  cache c !! s = Some o →
  cached_object env true (CStr s) c = (Ok o, c).
Proof. intros Hc. unfold cached_object. run. by rewrite Hc. Qed.

(** A string item that is not in the cache is classified and stored. *)
Lemma cached_object_miss env s o (c c' : Connect T) :
  cache c !! s = None →
  _get_mime_object env (CStr s) c = (Ok o, c') →
  cached_object env true (CStr s) c
  = (Ok o, set_cache (<[s := o]> (cache c')) c').
Proof.
  intros Hc Hget. unfold cached_object. run. rewrite Hc.
  unfold _get_mime_object in Hget. run. by rewrite Hget.
Qed.

(** After a cached classification of a string item, the cache holds the
    returned object under that string and has lost none of its entries. *)
Lemma cached_object_stored env s o (c c1 : Connect T) :
  cached_object env true (CStr s) c = (Ok o, c1) →
  cache c1 !! s = Some o ∧ cache_grown c c1.
Proof.
  unfold cached_object, bind at 1, gets. cbn beta iota.
  destruct (cache c !! s) as [o0|] eqn:Ec.
  - intros [= <- <-]. done.
  - unfold bind at 1.
    pose proof (cache_kept_get_mime_object env (CStr s) c) as Hk.
    destruct (_get_mime_object env (CStr s) c) as [[o1|e] c']; [|discriminate].
    unfold cache_kept in Hk. cbn in Hk. run. intros [= <- <-]. cbn.
    rewrite Hk. split; [apply lookup_insert_eq|].
    unfold cache_grown. cbn. by apply insert_subseteq.
Qed.

(** The loop of [_prepare_contents] with the cache, on string items: the
    objects it appends are all in the cache afterwards, so that the same
    loop run again, in any environment and from any state whose cache has
    kept those entries, appends the very same objects and changes
    nothing. *)
Lemma contents_loop_replay env items :
  all_strings items →
  ∀ has objs (c c1 : Connect T) has' objs',
    contents_loop env true items has objs c = (Ok (has', objs'), c1) →
    ∃ new,
      objs' = objs ++ new
      ∧ has' = has || any_image new
      ∧ cache_grown c c1
      ∧ ∀ env' (c2 : Connect T) has0 objs0,
          cache_grown c1 c2 →
          contents_loop env' true items has0 objs0 c2
          = (Ok (has0 || any_image new, objs0 ++ new), c2).
Proof.
  induction 1 as [|item items [s ->] _ IH]; intros has objs c c1 has' objs'.
  - cbn. intros [= <- <- <-]. exists []. rewrite !app_nil_r, !orb_false_r.
    split; [done|]. split; [done|]. split; [reflexivity|].
    intros env' c2 has0 objs0 _. cbn. by rewrite app_nil_r, orb_false_r.
  - cbn [contents_loop]. unfold bind at 1.
    destruct (cached_object env true (CStr s) c) as [[o|e] ca] eqn:Eo;
      [|discriminate].
    apply cached_object_stored in Eo as [Hs Hca].
    intros Hrest. apply IH in Hrest as (new & -> & -> & Hc1 & Hreplay).
    exists (o :: new). rewrite <- app_assoc. split; [done|]. split.
    { cbn. by destruct (String.eqb (main_type o) "image"), has. }
    split; [by etrans|].
    intros env' c2 has0 objs0 Hc2. cbn [contents_loop]. unfold bind at 1.
    assert (cache c2 !! s = Some o) as Hhit.
    { eapply lookup_weaken; [exact Hs|]. etrans; [exact Hc1|exact Hc2]. }
    rewrite (cached_object_hit env' s o c2 Hhit).
    rewrite (Hreplay env' c2 _ _ Hc2). rewrite <- app_assoc. cbn.
    by destruct (String.eqb (main_type o) "image"), has0.
Qed.

(** A second cached [_prepare_contents] on the same string items returns
    the content objects of the first one, in any environment [env'], and
    changes nothing. *)
Lemma prepare_contents_cached_again env items (c c1 : Connect T) has objs :
  all_strings items →
  _prepare_contents env (Some (ContList items)) true c = (Ok (has, objs), c1) →
  ∀ env' (c2 : Connect T),
    cache_grown c1 c2 →
    _prepare_contents env' (Some (ContList items)) true c2 = (Ok (has, objs), c2).
Proof.
  intros Hstr Hfirst env' c2 Hc2. cbn in *.
  destruct (contents_loop_replay env items Hstr _ _ _ _ _ _ Hfirst)
    as (new & -> & -> & _ & Hreplay).
  by rewrite (Hreplay env' c2 false [] Hc2).
Qed.
End Cache.

(** C9 fails on the code for an item given as a mapping from the source to
    a name: with the cache enabled the lookup of the item raises
    [TypeError] and nothing is composed, while the same item is composed
    without the cache. *)
Theorem cached_named_item_raises :
  (_prepare_message sample_env one_recipient None (Some named_image) true
     open_session).1 = Raise TypeError
  ∧ is_ok (_prepare_message sample_env one_recipient None (Some named_image) false
             open_session).1 = true
  ∧ cache (_prepare_message sample_env one_recipient None (Some named_image) true
             open_session).2 = ∅.
Proof. repeat split; vm_compute; reflexivity. Qed.

(** For a remote image given by its URL, a second cached build does not
    fetch again although the resource has changed; it works on the very
    object of the first build, which it gives a second [Content-ID] and a
    second [Content-Transfer-Encoding] header. *)
Lemma cached_image_built_twice :
  trace after_first_build = [EvHttpGet "http://example.org/logo.png"]
  ∧ heap after_first_build
    = [mkMime "image" "png" (Some "logo.png")
         [("Content-ID", "<8>"); ("Content-Transfer-Encoding", "base64")]
         "b64(PNGDATA)"]
  ∧ trace (_prepare_message changed_env one_recipient None (Some remote_image) true
             after_first_build).2 = trace after_first_build
  ∧ heap (_prepare_message changed_env one_recipient None (Some remote_image) true
            after_first_build).2
    = [mkMime "image" "png" (Some "logo.png")
         [("Content-ID", "<8>"); ("Content-Transfer-Encoding", "base64");
          ("Content-ID", "<8>"); ("Content-Transfer-Encoding", "base64")]
         "b64(PNGDATA)"].
Proof. repeat split; vm_compute; reflexivity. Qed.


(** ** [send] with [preview_only] *)





(** * Further properties of the methods *)

(** ** [_attempt_send]: the other outcomes of the retry loop *)

Section RetryOutcomes.
Context {T : Type} `{Transport T}.

Lemma sleeps_app tr1 tr2 : sleeps (tr1 ++ tr2) = sleeps tr1 ++ sleeps tr2.
Proof. apply omap_app. Qed.

Lemma transmissions_app tr1 tr2 :
  transmissions (tr1 ++ tr2) = transmissions tr1 ++ transmissions tr2.
Proof. apply omap_app. Qed.

(** After [k] disconnects, with more than [k] rounds left, the loop is at
    the round that follows them, [k] rounds of back-off behind it. *)
Lemma attempt_loop_skip_disconnects (k rem n : nat) (c : Connect T) rcpts m :
  disconnects k (smtp c) (user c) rcpts m →
  ∃ c1, attempt_loop (k + rem) n rcpts m c = attempt_loop rem (n + k) rcpts m c1
        ∧ smtp c1 = transport_after k (smtp c) (user c) rcpts m
        ∧ user c1 = user c
        ∧ sleeps (trace c1) = sleeps (trace c) ++ ((λ i, i * 3) <$> seq (S n) k)
        ∧ transmissions (trace c1) = transmissions (trace c) ++ replicate k (rcpts, m)
        ∧ unsent c1 = unsent c
        ∧ num_mail_sent c1 = num_mail_sent c.
Proof.
  revert n c. induction k as [|k IH]; intros n c Hd.
  - exists c. cbn. rewrite Nat.add_0_r, !app_nil_r. auto 10.
  - destruct Hd as [Hd1 Hd]. cbn [Nat.add].
    rewrite attempt_loop_disconnected by exact Hd1.
    set (c0 := set_trace _ _).
    destruct (IH (n + 1) c0 Hd) as (c1 & Heq & Ht & Hu & Hs & Htr & Hq & Hn).
    exists c1. rewrite Heq. split; [f_equal; lia|].
    split; [exact Ht|]. split; [exact Hu|].
    rewrite Hs, Htr. subst c0. cbn [trace set_trace].
    rewrite sleeps_app, transmissions_app. cbn.
    rewrite <- !app_assoc. cbn. replace (n + 1) with (S n) by lia.
    auto.
Qed.
End RetryOutcomes.

(** X1: a message that is accepted after [k] disconnects, [k] at most 2,
    is sent by [_attempt_send]: it returns what [sendmail] returned, has
    slept 3, 6, ... after the [k] failed attempts and not after the accepted
    one, has made [k + 1] transmissions, counts one more sent message and
    leaves the unsent queue alone. *)
Theorem attempt_send_accepted_after_disconnects {T} `{Transport T}
    (c : Connect T) (rcpts : list string) (m : string) (k : nat)
    (refused : list string) :
  (k < 3)%nat →
  disconnects k (smtp c) (user c) rcpts m →
  (smtp_sendmail (transport_after k (smtp c) (user c) rcpts m) (user c) rcpts m).1
  = Accepted refused →
  ∃ c', _attempt_send rcpts m c = (Ok (RetSent refused), c')
        ∧ sleeps (trace c') = sleeps (trace c) ++ backoff k
        ∧ transmissions (trace c') = transmissions (trace c) ++ replicate (S k) (rcpts, m)
        ∧ unsent c' = unsent c
        ∧ num_mail_sent c' = num_mail_sent c + 1.
Proof.
  intros Hk Hd Ha. unfold _attempt_send.
  destruct (attempt_loop_skip_disconnects k (3 - k) 0 c rcpts m Hd)
    as (c1 & Heq & Ht & Hu & Hs & Htr & Hq & Hn).
  replace (k + (3 - k)) with 3 in Heq by lia. rewrite Heq.
  destruct (3 - k) as [|rem] eqn:Erem; [lia|].
  rewrite <- Ht, <- Hu in Ha.
  destruct (attempt_loop_accepted c1 rem (0 + k) rcpts m refused Ha)
    as (c' & -> & Htr' & Hs' & Hq' & Hn').
  exists c'. split; [reflexivity|].
  rewrite Hs', Hs, Htr', Htr, Hq', Hq, Hn', Hn. unfold backoff.
  rewrite <- app_assoc. replace (S k) with (k + 1) by lia.
  rewrite replicate_add. auto.
Qed.

(** The theorem at work on a transport that disconnects twice. *)
Lemma attempt_send_accepted_after_disconnects_witness :
  ∃ c', _attempt_send ["a@x.org"] "MSG" two_disconnects = (Ok (RetSent []), c')
        ∧ sleeps (trace c') = sleeps (trace two_disconnects) ++ backoff 2
        ∧ transmissions (trace c')
          = transmissions (trace two_disconnects) ++ replicate 3 (["a@x.org"], "MSG")
        ∧ unsent c' = unsent two_disconnects
        ∧ num_mail_sent c' = num_mail_sent two_disconnects + 1.
Proof.
  apply (attempt_send_accepted_after_disconnects two_disconnects ["a@x.org"] "MSG" 2 []).
  - lia.
  - cbn. auto.
  - reflexivity.
Defined.

Section RetryInvariant.
Context {T : Type} `{Transport T}.

(** An exception of the transport other than a disconnect ends the loop
    at once. *)
Lemma attempt_loop_rejected (c : Connect T) k n rcpts m :
  (smtp_sendmail (smtp c) (user c) rcpts m).1 = Rejected →
  ∃ c', attempt_loop (S k) n rcpts m c = (Raise SMTPException, c')
        ∧ transmissions (trace c') = transmissions (trace c) ++ [(rcpts, m)]
        ∧ sleeps (trace c') = sleeps (trace c)
        ∧ unsent c' = unsent c
        ∧ num_mail_sent c' = num_mail_sent c.
Proof.
  intros Ha. cbn [attempt_loop]. unfold bind at 1. unfold sendmail.
  destruct (smtp_sendmail (smtp c) (user c) rcpts m) as [o t] eqn:E.
  cbn in Ha. subst o. run. eexists. split; [reflexivity|]. cbn.
  rewrite transmissions_app, sleeps_app. cbn. rewrite !app_nil_r. auto.
Qed.

(** What a run of the loop with [rem] rounds left can do, on any
    transport. *)
Lemma attempt_loop_outcome (rem n : nat) (c : Connect T) rcpts m :
  ∃ (j : nat) res c',
    attempt_loop rem n rcpts m c = (res, c')
    ∧ (j ≤ rem)%nat
    ∧ transmissions (trace c') = transmissions (trace c) ++ replicate j (rcpts, m)
    ∧ (user c' = user c ∧ is_closed c' = is_closed c ∧ cache c' = cache c
       ∧ heap c' = heap c)
    ∧ match res with
      | Ok RetFalse =>
          j = rem ∧ unsent c' = unsent c ++ [(rcpts, m)]
          ∧ num_mail_sent c' = num_mail_sent c
      | Ok (RetSent _) =>
          (1 ≤ j)%nat ∧ unsent c' = unsent c
          ∧ num_mail_sent c' = num_mail_sent c + 1
      | Raise e =>
          (1 ≤ j)%nat ∧ e = SMTPException ∧ unsent c' = unsent c
          ∧ num_mail_sent c' = num_mail_sent c
      | Ok _ => False
      end.
Proof.
  revert n c. induction rem as [|rem IH]; intros n c.
  - exists 0, (Ok RetFalse), (set_unsent (unsent c ++ [(rcpts, m)]) c).
    cbn. rewrite app_nil_r. auto 10.
  - cbn [attempt_loop]. unfold bind at 1. unfold sendmail.
    destruct (smtp_sendmail (smtp c) (user c) rcpts m) as [[refused| |] t] eqn:E.
    + exists 1. do 2 eexists. run. split; [reflexivity|]. cbn.
      rewrite !transmissions_app. cbn. rewrite ?app_nil_r.
      split; [lia|]. auto 10.
    + run.
      match goal with |- context [attempt_loop rem ?n' rcpts m ?c0] =>
        destruct (IH n' c0) as (j & res & c' & Heq & Hj & Htr & Hkept & Hres)
      end.
      exists (S j), res, c'. split; [exact Heq|]. split; [lia|].
      cbn in Htr, Hkept, Hres. split.
      { rewrite Htr. unfold transmissions. rewrite !omap_app. cbn.
        rewrite <- !app_assoc. reflexivity. }
      split; [exact Hkept|].
      destruct res as [[| | |]|e]; try done.
      * destruct Hres as (? & ? & ?). split; [lia|]. auto.
      * destruct Hres as (-> & ? & ?). auto.
      * destruct Hres as (? & ? & ? & ?). split; [lia|]. auto.
    + exists 1. do 2 eexists. run. split; [reflexivity|]. cbn.
      rewrite !transmissions_app. cbn. rewrite ?app_nil_r.
      split; [lia|]. auto 10.
Qed.
End RetryInvariant.

(** X2: when, after [k] disconnects ([k] at most 2), the transport raises
    another exception, [_attempt_send] lets it through at once: no further
    attempt, no sleep after it, and the message is neither counted as sent
    nor put on the unsent queue. *)
Theorem attempt_send_other_error_propagates {T} `{Transport T}
    (c : Connect T) (rcpts : list string) (m : string) (k : nat) :
  (k < 3)%nat →
  disconnects k (smtp c) (user c) rcpts m →
  (smtp_sendmail (transport_after k (smtp c) (user c) rcpts m) (user c) rcpts m).1
  = Rejected →
  ∃ c', _attempt_send rcpts m c = (Raise SMTPException, c')
        ∧ sleeps (trace c') = sleeps (trace c) ++ backoff k
        ∧ transmissions (trace c') = transmissions (trace c) ++ replicate (S k) (rcpts, m)
        ∧ unsent c' = unsent c
        ∧ num_mail_sent c' = num_mail_sent c.
Proof.
  intros Hk Hd Ha. unfold _attempt_send.
  destruct (attempt_loop_skip_disconnects k (3 - k) 0 c rcpts m Hd)
    as (c1 & Heq & Ht & Hu & Hs & Htr & Hq & Hn).
  replace (k + (3 - k)) with 3 in Heq by lia. rewrite Heq.
  destruct (3 - k) as [|rem] eqn:Erem; [lia|].
  rewrite <- Ht, <- Hu in Ha.
  destruct (attempt_loop_rejected c1 rem (0 + k) rcpts m Ha)
    as (c' & -> & Htr' & Hs' & Hq' & Hn').
  exists c'. split; [reflexivity|].
  rewrite Hs', Hs, Htr', Htr, Hq', Hq, Hn', Hn. unfold backoff.
  rewrite <- app_assoc. replace (S k) with (k + 1) by lia.
  rewrite replicate_add. auto.
Qed.

(** The theorem at work on a transport that disconnects once and then
    refuses. *)
Lemma attempt_send_other_error_propagates_witness :
  ∃ c', _attempt_send ["a@x.org"] "MSG" disconnect_then_reject
        = (Raise SMTPException, c')
        ∧ sleeps (trace c') = sleeps (trace disconnect_then_reject) ++ backoff 1
        ∧ transmissions (trace c')
          = transmissions (trace disconnect_then_reject)
            ++ replicate 2 (["a@x.org"], "MSG")
        ∧ unsent c' = unsent disconnect_then_reject
        ∧ num_mail_sent c' = num_mail_sent disconnect_then_reject.
Proof.
  apply (attempt_send_other_error_propagates disconnect_then_reject
           ["a@x.org"] "MSG" 1).
  - lia.
  - cbn. auto.
  - reflexivity.
Defined.

(** X3: on any transport, [_attempt_send] makes at least one and at most
    three transmissions, all of the given message to the given recipients,
    and accounts for the message in exactly one way: it returns [False]
    after three transmissions with the message appended to the unsent
    queue, or it returns the transport's answer with the counter of sent
    messages one higher, or it raises the transport's other exception with
    queue and counter unchanged.  It never touches the closed flag, the
    cache or the MIME objects. *)
Theorem attempt_send_accounts_for_message {T} `{Transport T}
    (c : Connect T) (rcpts : list string) (m : string) :
  ∃ (j : nat) res c',
    _attempt_send rcpts m c = (res, c')
    ∧ (1 ≤ j ≤ 3)%nat
    ∧ transmissions (trace c') = transmissions (trace c) ++ replicate j (rcpts, m)
    ∧ (user c' = user c ∧ is_closed c' = is_closed c ∧ cache c' = cache c
       ∧ heap c' = heap c)
    ∧ match res with
      | Ok RetFalse =>
          j = 3 ∧ unsent c' = unsent c ++ [(rcpts, m)]
          ∧ num_mail_sent c' = num_mail_sent c
      | Ok (RetSent _) =>
          unsent c' = unsent c ∧ num_mail_sent c' = num_mail_sent c + 1
      | Raise e =>
          e = SMTPException ∧ unsent c' = unsent c
          ∧ num_mail_sent c' = num_mail_sent c
      | Ok _ => False
      end.
Proof.
  destruct (attempt_loop_outcome 3 0 c rcpts m)
    as (j & res & c' & Heq & Hj & Htr & Hkept & Hres).
  exists j, res, c'. split; [exact Heq|].
  destruct res as [[| | |]|e]; try done.
  - destruct Hres as (? & ? & ?). split; [lia|]. auto.
  - destruct Hres as (-> & ? & ?). split; [lia|]. auto.
  - destruct Hres as (? & ? & ? & ?). split; [lia|]. auto.
Qed.

(** ** [send_unsent]: what it does to the queue *)

(** X4: with a single message in the unsent queue, [send_unsent] takes it
    off the queue and attempts it once through [_attempt_send]; afterwards
    the queue is empty when the message was accepted, holds the message
    again when three attempts disconnected, and is empty as well, the
    message gone, when the transport raised another exception, which
    [send_unsent] lets through. *)
Theorem send_unsent_single_entry {T} `{Transport T} (c : Connect T)
    (rcpts : list string) (m : string) :
  unsent c = [(rcpts, m)] →
  ∃ (j : nat) res c',
    send_unsent c = (res, c')
    ∧ (1 ≤ j ≤ 3)%nat
    ∧ transmissions (trace c') = transmissions (trace c) ++ replicate j (rcpts, m)
    ∧ match res with
      | Ok _ =>
          (unsent c' = [] ∧ num_mail_sent c' = num_mail_sent c + 1)
          ∨ (j = 3 ∧ unsent c' = [(rcpts, m)]
             ∧ num_mail_sent c' = num_mail_sent c)
      | Raise e =>
          e = SMTPException ∧ unsent c' = []
          ∧ num_mail_sent c' = num_mail_sent c
      end.
Proof.
  intros Hq. unfold send_unsent, bind at 1, gets. rewrite Hq.
  cbn [length seq unsent_loop]. unfold bind at 1, gets. rewrite Hq.
  unfold bind at 1, lift. cbn [pop lookup list_lookup take drop app].
  unfold bind at 1, modify. unfold bind at 1. unfold _attempt_send.
  destruct (attempt_loop_outcome 3 0 (set_unsent [] c) rcpts m)
    as (j & res & c' & Heq & Hj & Htr & Hkept & Hres).
  rewrite Heq. cbn in Htr, Hres.
  destruct res as [[| | |]|e]; try done.
  - exists j. do 2 eexists. split; [reflexivity|].
    destruct Hres as (? & ? & ?). split; [lia|]. split; [exact Htr|]. left. auto.
  - exists j. do 2 eexists. split; [reflexivity|].
    destruct Hres as (-> & ? & ?). split; [lia|]. split; [exact Htr|]. right. auto.
  - exists j. do 2 eexists. split; [reflexivity|].
    destruct Hres as (? & ? & ? & ?). split; [lia|]. split; [exact Htr|]. auto.
Qed.

(** The theorem at work on a queue of one message and a transport that
    disconnects twice before it accepts. *)
Lemma send_unsent_single_entry_witness :
  ∃ (j : nat) res c',
    send_unsent (set_unsent [(["a@x.org"], "M1")] two_disconnects) = (res, c')
    ∧ (1 ≤ j ≤ 3)%nat
    ∧ transmissions (trace c')
      = transmissions (trace (set_unsent [(["a@x.org"], "M1")] two_disconnects))
        ++ replicate j (["a@x.org"], "M1")
    ∧ match res with
      | Ok _ =>
          (unsent c' = []
           ∧ num_mail_sent c'
             = num_mail_sent (set_unsent [(["a@x.org"], "M1")] two_disconnects) + 1)
          ∨ (j = 3 ∧ unsent c' = [(["a@x.org"], "M1")]
             ∧ num_mail_sent c'
               = num_mail_sent (set_unsent [(["a@x.org"], "M1")] two_disconnects))
      | Raise e =>
          e = SMTPException ∧ unsent c' = []
          ∧ num_mail_sent c'
            = num_mail_sent (set_unsent [(["a@x.org"], "M1")] two_disconnects)
      end.
Proof.
  apply (send_unsent_single_entry
           (set_unsent [(["a@x.org"], "M1")] two_disconnects) ["a@x.org"] "M1").
  reflexivity.
Defined.

(** X5: on a transport that accepts every message, [send_unsent] raises
    [IndexError] whenever the queue holds two or more messages: round [i]
    pops index [i] of a queue that the sent messages have left. *)
Theorem send_unsent_index_error {T} `{Transport T} (c : Connect T) :
  (∀ t u r m, ∃ refused, (smtp_sendmail t u r m).1 = Accepted refused) →
  (2 ≤ length (unsent c))%nat →
  (send_unsent c).1 = Raise IndexError.
Proof. intros Hacc Hlen. by apply send_unsent_accepting_raises. Qed.

(** The theorem at work on three queued messages. *)
Lemma send_unsent_index_error_witness :
  (send_unsent (accepting_session three_unsent)).1 = Raise IndexError.
Proof.
  apply (send_unsent_index_error (accepting_session three_unsent)).
  - intros t u r m. exists []. reflexivity.
  - cbn. lia.
Defined.

Section ResendUnplugged.
Context {T : Type} `{Transport T}.

(** A transport on which every call disconnects. *)
Hypothesis unplugged_all :
  ∀ t u r m, (smtp_sendmail t u r m).1 = Disconnected.

Lemma disconnects_unplugged n t u r m : disconnects n t u r m.
Proof. revert t. induction n as [|n IH]; intros t; cbn; auto. Qed.

Lemma attempt_send_unplugged (c : Connect T) r m :
  ∃ c', _attempt_send r m c = (Ok RetFalse, c')
        ∧ unsent c' = unsent c ++ [(r, m)]
        ∧ num_mail_sent c' = num_mail_sent c
        ∧ transmissions (trace c') = transmissions (trace c) ++ replicate 3 (r, m).
Proof.
  unfold _attempt_send.
  destruct (attempt_loop_skip_disconnects 3 0 0 c r m (disconnects_unplugged _ _ _ _ _))
    as (c1 & Heq & _ & _ & _ & Htr & Hq & Hn).
  cbn [Nat.add] in Heq. rewrite Heq, attempt_loop_exhausted.
  eexists. split; [reflexivity|].
  cbn [unsent num_mail_sent trace set_unsent]. rewrite Hq, Hn, Htr. auto.
Qed.

Lemma pop_permutation {A} (i : nat) (l : list A) x l' :
  pop i l = Ok (x, l') → l ≡ₚ x :: l'.
Proof.
  unfold pop. destruct (l !! i) as [y|] eqn:E; [|discriminate].
  intros [= <- <-]. rewrite <- (take_drop_middle l i y E) at 1.
  by rewrite Permutation_middle.
Qed.

(** Each round takes a message out, transmits it three times and puts it
    back at the end. *)
Lemma unsent_loop_unplugged (idx : list nat) (c : Connect T) :
  Forall (λ i, i < length (unsent c))%nat idx →
  ∃ c' rounds,
    unsent_loop idx c = (Ok tt, c')
    ∧ unsent c' ≡ₚ unsent c
    ∧ num_mail_sent c' = num_mail_sent c
    ∧ length rounds = length idx
    ∧ Forall (λ x, x ∈ unsent c) rounds
    ∧ transmissions (trace c')
      = transmissions (trace c) ++ (rounds ≫= replicate 3).
Proof.
  revert c. induction idx as [|i idx IH]; intros c Hidx.
  - exists c, []. cbn. rewrite app_nil_r. auto 10.
  - inversion Hidx as [|? ? Hi Hrest]; subst.
    cbn [unsent_loop]. unfold bind at 1, gets. cbn beta iota.
    destruct (pop i (unsent c)) as [[[r msg] q']|e] eqn:Epop.
    + pose proof (pop_permutation _ _ _ _ Epop) as Hperm.
      unfold bind at 1, lift. unfold bind at 1, modify. cbn beta iota.
      destruct (attempt_send_unplugged (set_unsent q' c) r msg)
        as (c1 & Hsend & Hq1 & Hn1 & Htr1).
      unfold bind at 1. rewrite Hsend.
      cbn [unsent num_mail_sent trace set_unsent] in Hq1, Hn1, Htr1.
      assert (unsent c1 ≡ₚ unsent c) as Hp1.
      { rewrite Hq1, Hperm. by rewrite <- Permutation_cons_append. }
      destruct (IH c1) as (c' & rounds & Heq & Hq' & Hn' & Hlen & Hin & Htr').
      { rewrite (Permutation_length Hp1). exact Hrest. }
      exists c', ((r, msg) :: rounds). split; [exact Heq|]. split; [by etrans|].
      split; [congruence|]. split; [cbn; by rewrite Hlen|]. split.
      * constructor.
        -- rewrite Hperm. apply elem_of_cons. by left.
        -- eapply Forall_impl; [exact Hin|]. intros x Hx. by rewrite <- Hp1.
      * rewrite Htr', Htr1, <- app_assoc. reflexivity.
    + unfold pop in Epop. apply lookup_lt_is_Some_2 in Hi as [y Hy].
      rewrite Hy in Epop. discriminate.
Qed.
End ResendUnplugged.

(** X6: on a transport on which every call disconnects, [send_unsent] does
    not raise and loses no message: the queue afterwards holds the same
    messages as before (in another order) and none is counted as sent.
    There is one round per queued message, and a round transmits one
    message of the queue three times, so the transmissions are three times
    the length of the queue in all; the rounds need not take different
    messages. *)
Theorem send_unsent_keeps_failed_messages {T} `{Transport T} (c : Connect T) :
  (∀ t u r m, (smtp_sendmail t u r m).1 = Disconnected) →
  ∃ c' rounds,
    send_unsent c = (Ok tt, c')
    ∧ unsent c' ≡ₚ unsent c
    ∧ num_mail_sent c' = num_mail_sent c
    ∧ length rounds = length (unsent c)
    ∧ Forall (λ x, x ∈ unsent c) rounds
    ∧ transmissions (trace c')
      = transmissions (trace c) ++ (rounds ≫= replicate 3).
Proof.
  intros Hun. unfold send_unsent, bind at 1, gets.
  destruct (unsent_loop_unplugged Hun (seq 0 (length (unsent c))) c)
    as (c' & rounds & Heq & Hq & Hn & Hlen & Hin & Htr).
  { apply Forall_forall. intros i Hi. apply elem_of_seq in Hi. lia. }
  exists c', rounds. rewrite length_seq in Hlen. auto 10.
Qed.

(** The theorem at work on three queued messages: the first is transmitted
    three times, the third six times and the second never. *)
Lemma send_unsent_keeps_failed_messages_witness :
  transmissions (trace (send_unsent (unplugged_session three_unsent)).2)
  = replicate 3 (["a@x.org"], "M1") ++ replicate 6 (["c@x.org"], "M3")
  ∧ ∃ c' rounds,
      send_unsent (unplugged_session three_unsent) = (Ok tt, c')
      ∧ unsent c' ≡ₚ unsent (unplugged_session three_unsent)
      ∧ num_mail_sent c' = num_mail_sent (unplugged_session three_unsent)
      ∧ length rounds = length (unsent (unplugged_session three_unsent))
      ∧ Forall (λ x, x ∈ unsent (unplugged_session three_unsent)) rounds
      ∧ transmissions (trace c')
        = transmissions (trace (unplugged_session three_unsent))
          ++ (rounds ≫= replicate 3).
Proof.
  split; [vm_compute; reflexivity|].
  apply (send_unsent_keeps_failed_messages (unplugged_session three_unsent)).
  intros t u r m. reflexivity.
Defined.

(** ** [_resolveAddresses]: building and validating the recipients *)

Section Resolve.
Context {T : Type} `{Transport T} (env : Env).

Lemma set_trace_same (c : Connect T) : set_trace (trace c) c = c.
Proof. by destruct c. Qed.

Lemma make_addr_alias_target_ok x a which :
  is_ok (_make_addr_alias_target x a which) = well_formed_arg x.
Proof.
  destruct x as [s|xs|xs|kv|]; cbn; try done;
    by destruct (forallb elem_is_str xs).
Qed.

Lemma make_addr_alias_target_error x a which e :
  _make_addr_alias_target x a which = Raise e → e = YagAddressError.
Proof.
  destruct x as [s|xs|xs|kv|]; cbn; try done;
    try (destruct (forallb elem_is_str xs); [done|]); by intros [= <-].
Qed.

Lemma make_addr_alias_target_spec x a which :
  match _make_addr_alias_target x a which with
  | Ok a' => well_formed_arg x = true
             ∧ recipients a' = recipients a ++ arg_addresses x
  | Raise e => well_formed_arg x = false ∧ e = YagAddressError
  end.
Proof.
  pose proof (make_addr_alias_target_ok x a which) as Hok.
  destruct (_make_addr_alias_target x a which) as [a'|e] eqn:E; cbn in Hok.
  - split; [done|]. by eapply make_addr_alias_target_recipients.
  - split; [done|]. by eapply make_addr_alias_target_error.
Qed.

Lemma opt_target_spec x which a :
  match opt_target x which a with
  | Ok a' => from_option well_formed_arg true x = true
             ∧ recipients a' = recipients a ++ from_option arg_addresses [] x
  | Raise e => from_option well_formed_arg true x = false ∧ e = YagAddressError
  end.
Proof.
  destruct x as [x|]; cbn.
  - apply make_addr_alias_target_spec.
  - by rewrite app_nil_r.
Qed.

(** The first step: the recipients that stand for [to]. *)
Lemma to_target_spec (u un : string) to cc bcc :
  match match to with
        | Some t => _make_addr_alias_target t (mkAddresses [] ∅) "to"
        | None =>
            match cc with
            | Some _ =>
                match bcc with
                | Some _ =>
                    _make_addr_alias_target (AList [EStr u; EStr un])
                      (mkAddresses [] ∅) "to"
                | None => Ok (extend_recipients [u] (mkAddresses [] ∅))
                end
            | None => Ok (extend_recipients [u] (mkAddresses [] ∅))
            end
        end with
  | Ok a' => from_option well_formed_arg true to = true
             ∧ recipients a' = to_recipients u un to cc bcc
  | Raise e => from_option well_formed_arg true to = false ∧ e = YagAddressError
  end.
Proof.
  destruct to as [t|]; cbn [from_option to_recipients].
  - apply (make_addr_alias_target_spec t (mkAddresses [] ∅) "to").
  - destruct cc, bcc; cbn; done.
Qed.

(** The call without validation: it reads the session and changes
    nothing; it fails exactly on a malformed argument. *)
Lemma resolve_unvalidated (c : Connect T) to cc bcc thr :
  ∃ r, _resolveAddresses env to cc bcc false thr c = (r, c)
       ∧ match r with
         | Ok a =>
             well_formed_args to cc bcc = true
             ∧ recipients a
               = to_recipients (user c) (username c) to cc bcc
                 ++ from_option arg_addresses [] cc
                 ++ from_option arg_addresses [] bcc
         | Raise e => well_formed_args to cc bcc = false ∧ e = YagAddressError
         end.
Proof.
  unfold _resolveAddresses, bind, gets, lift, ret, well_formed_args.
  destruct (match to, cc, bcc with
            | Some t, _, _ => _make_addr_alias_target t _ "to"
            | None, Some _, Some _ => _
            | None, _, _ => _
            end) as [a1|e1] eqn:E1.
  all: match type of E1 with
       | ?lhs = _ =>
           assert (match lhs with
                   | Ok a' => from_option well_formed_arg true to = true
                              ∧ recipients a'
                                = to_recipients (user c) (username c) to cc bcc
                   | Raise e => from_option well_formed_arg true to = false
                                ∧ e = YagAddressError
                   end) as H1
             by exact (to_target_spec (user c) (username c) to cc bcc);
           rewrite E1 in H1
       end.
  2: { destruct H1 as [-> ->]. eexists. split; [reflexivity|]. done. }
  destruct H1 as [-> Hr1].
  pose proof (opt_target_spec cc "cc" a1) as H2.
  destruct (opt_target cc "cc" a1) as [a2|e2]; cbn beta iota in H2.
  2: { destruct H2 as [-> ->]. eexists. split; [reflexivity|]. done. }
  destruct H2 as [-> Hr2].
  pose proof (opt_target_spec bcc "bcc" a2) as H3.
  destruct (opt_target bcc "bcc" a2) as [a3|e3]; cbn beta iota in H3.
  2: { destruct H3 as [-> ->]. eexists. split; [reflexivity|]. done. }
  destruct H3 as [-> Hr3].
  eexists. split; [reflexivity|]. split; [done|].
  rewrite Hr3, Hr2, Hr1. by rewrite <- app_assoc.
Qed.

(** With validation, the call is the call without it followed by the
    validation loop over the recipients. *)
Lemma resolve_validated (c : Connect T) to cc bcc thr :
  _resolveAddresses env to cc bcc true thr c
  = match (_resolveAddresses env to cc bcc false thr c).1 with
    | Ok a =>
        match validate_loop env thr (length (recipients a)) 0 (recipients a) c with
        | (Ok r, c') => (Ok (mkAddresses r (entries a)), c')
        | (Raise e, c') => (Raise e, c')
        end
    | Raise e => (Raise e, c)
    end.
Proof.
  unfold _resolveAddresses, bind, gets, lift, ret.
  destruct (match to, cc, bcc with
            | Some t, _, _ => _make_addr_alias_target t _ "to"
            | None, Some _, Some _ => _
            | None, _, _ => _
            end) as [a1|e1]; [|done].
  destruct (opt_target cc "cc" a1) as [a2|e2]; [|done].
  destruct (opt_target bcc "bcc" a2) as [a3|e3]; [|done].
  reflexivity.
Qed.
End Resolve.

Section Lenient.
Context {T : Type} `{Transport T} (env : Env).

Lemma set_trace_twice t1 t2 (c : Connect T) :
  set_trace t2 (set_trace t1 c) = set_trace t2 c.
Proof. reflexivity. Qed.

Lemma remove_first_sublist x (l : list string) : remove_first x l `sublist_of` l.
Proof.
  induction l as [|y l IH]; cbn; [done|].
  destruct (String.eqb x y); [by apply sublist_cons|by apply sublist_skip].
Qed.

Lemma remove_first_elem_length x (l : list string) :
  x ∈ l → S (length (remove_first x l)) = length l.
Proof.
  induction l as [|y l IH]; [by intros ?%elem_of_nil|].
  intros Hin. cbn. destruct (String.eqb x y) eqn:E; [done|].
  apply String.eqb_neq in E. cbn. f_equal. apply IH.
  apply elem_of_cons in Hin as [->|Hin]; done.
Qed.

Lemma remove_first_valid x (l : list string) :
  validate_email_with_regex env x = false →
  filter (λ y, validate_email_with_regex env y = true) (remove_first x l)
  = filter (λ y, validate_email_with_regex env y = true) l.
Proof.
  intros Hx. induction l as [|y l IH]; cbn [remove_first]; [done|].
  destruct (String.eqb x y) eqn:E.
  - apply String.eqb_eq in E as <-. rewrite filter_cons_False; [done|].
    by rewrite Hx.
  - rewrite !filter_cons, IH. reflexivity.
Qed.

(** Without [throw_invalid_exception] the loop never raises; what it
    returns is the list after [remove] of some invalid addresses, each of
    them in the list when it is removed, one logged error for each. *)
Lemma validate_loop_lenient (fuel i : nat) (rcpts : list string) (c : Connect T) :
  ∃ (bad r : list string),
    validate_loop env false fuel i rcpts c
    = (Ok r, set_trace (trace c ++ (invalid_logged <$> bad)) c)
    ∧ r = remove_each bad rcpts
    ∧ r `sublist_of` rcpts
    ∧ length rcpts = (length r + length bad)%nat
    ∧ Forall (λ a, a ∈ rcpts ∧ validate_email_with_regex env a = false) bad
    ∧ filter (λ y, validate_email_with_regex env y = true) r
      = filter (λ y, validate_email_with_regex env y = true) rcpts.
Proof.
  revert i rcpts c. induction fuel as [|fuel IH]; intros i rcpts c.
  - exists [], rcpts. cbn. rewrite app_nil_r, set_trace_same.
    split; [done|]. split; [done|]. split; [done|]. split; [lia|done].
  - cbn [validate_loop]. destruct (rcpts !! i) as [a|] eqn:Ei.
    + destruct (validate_email_with_regex env a) eqn:Ha.
      * apply IH.
      * unfold bind at 1, emit, modify. cbn beta iota.
        destruct (IH (S i) (remove_first a rcpts)
                    (set_trace (trace c ++ [EvLogError (YagInvalidEmailAddress a)]) c))
          as (bad & r & Heq & Hr & Hsub & Hlen & Hbad & Hvalid).
        assert (a ∈ rcpts) as Hin by (by eapply list_elem_of_lookup_2).
        exists (a :: bad), r. rewrite Heq. cbn [trace set_trace].
        rewrite set_trace_twice, <- app_assoc. split; [done|].
        split; [exact Hr|].
        split; [etrans; [exact Hsub|apply remove_first_sublist]|].
        split.
        { rewrite <- (remove_first_elem_length a rcpts Hin). cbn. lia. }
        split.
        { constructor; [done|].
          eapply Forall_impl; [exact Hbad|]. intros b [Hb ?]. split; [|done].
          eapply sublist_subseteq; [apply remove_first_sublist|exact Hb]. }
        rewrite Hvalid. by apply remove_first_valid.
    + exists [], rcpts. cbn. rewrite app_nil_r, set_trace_same.
      split; [done|]. split; [done|]. split; [done|]. split; [lia|done].
Qed.
End Lenient.

(** X7: a malformed [to], [cc] or [bcc] (a value that is no string, list,
    tuple or mapping, or a list or tuple that holds a non-string) makes
    [_resolveAddresses] raise [YagAddressError], with or without
    validation, strict or not, and the session is left as it was. *)
Theorem resolve_malformed_argument_raises {T} `{Transport T} env (c : Connect T)
    to cc bcc validate thr :
  well_formed_args to cc bcc = false →
  _resolveAddresses env to cc bcc validate thr c = (Raise YagAddressError, c).
Proof.
  intros Hbad.
  destruct (resolve_unvalidated env c to cc bcc thr) as (r & Heq & Hr).
  destruct r as [a|e]; [destruct Hr; congruence|]. destruct Hr as [_ ->].
  destruct validate; [|exact Heq].
  rewrite resolve_validated, Heq. reflexivity.
Qed.

(** The theorem at work: a valid [to], and a [cc] tuple that holds a
    non-string. *)
Lemma resolve_malformed_argument_raises_witness :
  _resolveAddresses sample_env (Some (AStr "a@x.org")) (Some bad_tuple) None
    true false open_session
  = (Raise YagAddressError, open_session).
Proof.
  apply (resolve_malformed_argument_raises sample_env open_session
           (Some (AStr "a@x.org")) (Some bad_tuple) None true false).
  reflexivity.
Defined.

(** X8: with well-formed arguments and validation off,
    [_resolveAddresses] succeeds without changing the session, and the
    recipients are, in this order and with duplicates kept: the addresses
    of [to] (or the defaults when [to] is absent), then those of [cc], then
    those of [bcc]. *)
Theorem resolve_recipients_in_order {T} `{Transport T} env (c : Connect T)
    to cc bcc thr :
  well_formed_args to cc bcc = true →
  ∃ a, _resolveAddresses env to cc bcc false thr c = (Ok a, c)
       ∧ recipients a
         = to_recipients (user c) (username c) to cc bcc
           ++ from_option arg_addresses [] cc
           ++ from_option arg_addresses [] bcc.
Proof.
  intros Hwf.
  destruct (resolve_unvalidated env c to cc bcc thr) as (r & Heq & Hr).
  destruct r as [a|e]; [|destruct Hr; congruence].
  exists a. by destruct Hr.
Qed.

(** The theorem at work: the same address in [to] and in [bcc], a mapping
    as [cc]. *)
Lemma resolve_recipients_in_order_witness :
  ∃ a, _resolveAddresses sample_env (Some (AStr "a@x.org"))
         (Some (ADict [("c@x.org", "Carl"); ("d@x.org", "Dora")]))
         (Some (ATuple [EStr "a@x.org"])) false false open_session
       = (Ok a, open_session)
       ∧ recipients a = ["a@x.org"; "c@x.org"; "d@x.org"; "a@x.org"].
Proof.
  apply (resolve_recipients_in_order sample_env open_session
           (Some (AStr "a@x.org"))
           (Some (ADict [("c@x.org", "Carl"); ("d@x.org", "Dora")]))
           (Some (ATuple [EStr "a@x.org"])) false).
  reflexivity.
Defined.

(** X9: when every resolved recipient is valid, validation changes
    nothing: the call returns the addresses of the call without validation
    and logs nothing, strict or not. *)
Theorem resolve_all_valid {T} `{Transport T} env (c : Connect T)
    to cc bcc thr a :
  _resolveAddresses env to cc bcc false thr c = (Ok a, c) →
  Forall (λ x, validate_email_with_regex env x = true) (recipients a) →
  _resolveAddresses env to cc bcc true thr c = (Ok a, c).
Proof.
  intros Heq Hall. rewrite resolve_validated, Heq. cbn [fst].
  rewrite validate_loop_all_valid by done. by destruct a.
Qed.

(** The theorem at work on two valid recipients and a valid copy. *)
Lemma resolve_all_valid_witness :
  _resolveAddresses sample_env preview_to preview_cc None true true open_session
  = (Ok preview_addresses, open_session).
Proof.
  apply (resolve_all_valid sample_env open_session preview_to preview_cc None
           true preview_addresses).
  - vm_compute. reflexivity.
  - repeat constructor.
Defined.

(** X10: without [throw_invalid_exception], validation never raises for
    well-formed arguments.  The recipients it returns are exactly those of
    the call without validation after [remove] of the addresses [bad], one
    after the other; each of them is an invalid recipient, each removal
    takes one recipient out, and each has one error record in the log, in
    the order of the removals.  No valid recipient is lost: the valid
    recipients are the same before and after, in the same order.  The other
    entries of [addresses] and the rest of the session are untouched. *)
Theorem resolve_lenient_validation {T} `{Transport T} env (c : Connect T)
    to cc bcc a :
  _resolveAddresses env to cc bcc false false c = (Ok a, c) →
  ∃ (bad r : list string),
    _resolveAddresses env to cc bcc true false c
    = (Ok (mkAddresses r (entries a)),
       set_trace (trace c ++ (invalid_logged <$> bad)) c)
    ∧ r = remove_each bad (recipients a)
    ∧ r `sublist_of` recipients a
    ∧ length (recipients a) = (length r + length bad)%nat
    ∧ Forall (λ x, x ∈ recipients a ∧ validate_email_with_regex env x = false) bad
    ∧ filter (λ y, validate_email_with_regex env y = true) r
      = filter (λ y, validate_email_with_regex env y = true) (recipients a).
Proof.
  intros Heq. rewrite resolve_validated, Heq. cbn [fst].
  destruct (validate_loop_lenient env (length (recipients a)) 0 (recipients a) c)
    as (bad & r & Hloop & Hrest).
  exists bad, r. rewrite Hloop. split; [reflexivity|exact Hrest].
Qed.

(** The theorem at work: of three recipients the second is invalid, and it
    is the one taken out. *)
Lemma resolve_lenient_validation_witness :
  _resolveAddresses sample_env one_invalid None None true false open_session
  = (Ok (mkAddresses ["a@x.org"; "b@x.org"] (entries one_invalid_addresses)),
     set_trace [invalid_logged "nobody"] open_session)
  ∧ ∃ (bad r : list string),
      _resolveAddresses sample_env one_invalid None None true false open_session
      = (Ok (mkAddresses r (entries one_invalid_addresses)),
         set_trace (trace open_session ++ (invalid_logged <$> bad)) open_session)
      ∧ r = remove_each bad (recipients one_invalid_addresses)
      ∧ r `sublist_of` recipients one_invalid_addresses
      ∧ length (recipients one_invalid_addresses) = (length r + length bad)%nat
      ∧ Forall (λ x, x ∈ recipients one_invalid_addresses
                     ∧ validate_email_with_regex sample_env x = false) bad
      ∧ filter (λ y, validate_email_with_regex sample_env y = true) r
        = filter (λ y, validate_email_with_regex sample_env y = true)
            (recipients one_invalid_addresses).
Proof.
  split; [vm_compute; reflexivity|].
  apply (resolve_lenient_validation sample_env open_session one_invalid None None
           one_invalid_addresses).
  vm_compute. reflexivity.
Defined.

(** X11: with [throw_invalid_exception], a call whose resolved recipients
    contain an invalid address raises [YagInvalidEmailAddress] for one of
    them; nothing is logged and the session is left as it was. *)
Theorem resolve_strict_validation {T} `{Transport T} env (c : Connect T)
    to cc bcc a :
  _resolveAddresses env to cc bcc false true c = (Ok a, c) →
  Exists (λ x, validate_email_with_regex env x = false) (recipients a) →
  ∃ x, x ∈ recipients a ∧ validate_email_with_regex env x = false
       ∧ _resolveAddresses env to cc bcc true true c
         = (Raise (YagInvalidEmailAddress x), c).
Proof. intros Heq Hex. by eapply resolve_strict_raises. Qed.

(** The theorem at work: of three recipients the second is invalid. *)
Lemma resolve_strict_validation_witness :
  ∃ x, x ∈ recipients one_invalid_addresses
       ∧ validate_email_with_regex sample_env x = false
       ∧ _resolveAddresses sample_env one_invalid None None true true open_session
         = (Raise (YagInvalidEmailAddress x), open_session).
Proof.
  apply (resolve_strict_validation sample_env open_session one_invalid None None
           one_invalid_addresses).
  - vm_compute. reflexivity.
  - apply Exists_cons_tl, Exists_cons_hd. reflexivity.
Defined.

(** ** What composition leaves alone, and what it does to the cache *)

#[export] Instance kept_preorder {T B} (f : Connect T → B) : PreOrder (kept f).
Proof.
  split.
  - intros c. reflexivity.
  - intros c1 c2 c3. unfold kept. congruence.
Qed.

Section Kept.
Context {T : Type} `{Transport T} (env : Env).
Context {B : Type} (f : Connect T → B).

Lemma kept_emit e : trace_blind f → preserves (kept f) (emit e).
Proof. intros Hf c. apply Hf. Qed.

Lemma kept_alloc m : heap_blind f → preserves (kept f) (alloc m).
Proof. intros Hf c. apply Hf. Qed.

Lemma kept_mutate r g : heap_blind f → preserves (kept f) (mutate r g).
Proof. intros Hf c. apply Hf. Qed.

Lemma kept_set_cache (g : Connect T → gmap string content_object) :
  cache_blind f → preserves (kept f) (modify (λ c, set_cache (g c) c)).
Proof. intros Hf c. apply Hf. Qed.

Hypothesis f_trace : trace_blind f.

Create HintDb kept.
#[local] Hint Resolve kept_emit kept_alloc kept_mutate kept_set_cache : kept.

Ltac kept_step :=
  lazymatch goal with
  | |- preserves _ (bind _ _) => apply preserves_bind; [apply _| |intros]
  | |- preserves _ (ret _) => apply preserves_ret; apply _
  | |- preserves _ (raise _) => apply preserves_raise; apply _
  | |- preserves _ (gets _) => apply preserves_gets; apply _
  | |- preserves _ (lift _) => apply preserves_lift; apply _
  | |- preserves _ (match ?x with _ => _ end) => destruct x
  | |- preserves _ _ => solve [eauto with kept]
  end.
Ltac keep := repeat kept_step.

Lemma kept_validate_loop thr fuel i rcpts :
  preserves (kept f) (validate_loop env thr fuel i rcpts).
Proof.
  revert i rcpts. induction fuel as [|fuel IH]; intros i rcpts; cbn [validate_loop];
    keep.
Qed.
#[local] Hint Resolve kept_validate_loop : kept.

(** Address resolution changes nothing but the trace. *)
Lemma kept_resolveAddresses to cc bcc validate thr :
  preserves (kept f) (_resolveAddresses env to cc bcc validate thr).
Proof. unfold _resolveAddresses. keep. Qed.

Hypothesis f_heap : heap_blind f.

Lemma kept_literal_object s : preserves (kept f) (literal_object env s).
Proof. unfold literal_object. keep. Qed.

Lemma kept_typed_object s n content types :
  preserves (kept f) (typed_object env s n content types).
Proof. unfold typed_object. keep. Qed.
#[local] Hint Resolve kept_literal_object kept_typed_object : kept.

(** Classification changes nothing but the trace and the heap. *)
Lemma kept_get_mime_object item : preserves (kept f) (_get_mime_object env item).
Proof. unfold _get_mime_object. keep. Qed.
#[local] Hint Resolve kept_get_mime_object : kept.

Lemma kept_attach_loop pairs msg : preserves (kept f) (attach_loop env pairs msg).
Proof.
  revert msg. induction pairs as [|[o item] pairs IH]; intros msg;
    cbn [attach_loop]; keep.
Qed.
#[local] Hint Resolve kept_attach_loop : kept.

(** With the cache off, or for a projection that does not look at it. *)
Lemma kept_cached_object use_cache item :
  use_cache = false ∨ cache_blind f →
  preserves (kept f) (cached_object env use_cache item).
Proof.
  unfold cached_object. intros [->|Hc]; [keep|]. destruct use_cache; keep.
Qed.
#[local] Hint Resolve kept_cached_object : kept.

Lemma kept_contents_loop use_cache items has objs :
  use_cache = false ∨ cache_blind f →
  preserves (kept f) (contents_loop env use_cache items has objs).
Proof.
  intros Hc. revert has objs. induction items as [|item items IH]; intros has objs;
    cbn [contents_loop]; keep.
Qed.
#[local] Hint Resolve kept_contents_loop : kept.

Lemma kept_prepare_contents contents use_cache :
  use_cache = false ∨ cache_blind f →
  preserves (kept f) (_prepare_contents env contents use_cache).
Proof. intros Hc. unfold _prepare_contents. keep. Qed.
#[local] Hint Resolve kept_prepare_contents : kept.

(** Composition changes nothing but the trace, the heap and, with the
    cache on, the cache. *)
Lemma kept_prepare_message a subject contents use_cache :
  use_cache = false ∨ cache_blind f →
  preserves (kept f) (_prepare_message env a subject contents use_cache).
Proof. intros Hc. unfold _prepare_message. keep. Qed.
End Kept.

Section CacheGrowth.
Context {T : Type} `{Transport T} (env : Env).

Lemma preserves_weaken {A} (R R' : relation (Connect T)) (m : M (Connect T) A) :
  (∀ c c', R c c' → R' c c') → preserves R m → preserves R' m.
Proof. intros HR Hm c. apply HR, Hm. Qed.

Lemma kept_cache_grown (c c' : Connect T) : kept cache c c' → cache_grown c c'.
Proof. unfold kept, cache_grown. by intros ->. Qed.

Lemma cache_trace_blind : trace_blind (T:=T) cache.
Proof. by intros t c. Qed.

Lemma cache_heap_blind : heap_blind (T:=T) cache.
Proof. by intros h c. Qed.

(** A cached lookup adds an entry under a key that was not there, or
    none. *)
Lemma cache_grown_cached_object use_cache item :
  preserves (T:=T) cache_grown (cached_object env use_cache item).
Proof.
  destruct use_cache.
  - intros c. unfold cached_object. destruct item as [s|kv]; [|reflexivity].
    unfold bind at 1, gets. cbn beta iota.
    destruct (cache c !! s) as [o|] eqn:Ec; [reflexivity|].
    unfold bind at 1.
    pose proof (kept_get_mime_object env cache cache_trace_blind cache_heap_blind
                  (CStr s) c) as Hk.
    destruct (_get_mime_object env (CStr s) c) as [[o|e] c'];
      unfold kept in Hk; cbn in Hk.
    + run. unfold cache_grown. cbn. rewrite Hk. by apply insert_subseteq.
    + cbn. unfold cache_grown. by rewrite Hk.
  - eapply preserves_weaken; [apply kept_cache_grown|].
    apply kept_cached_object;
      first [apply cache_trace_blind|apply cache_heap_blind|by left].
Qed.

Lemma cache_grown_contents_loop use_cache items has objs :
  preserves (T:=T) cache_grown (contents_loop env use_cache items has objs).
Proof.
  revert has objs. induction items as [|item items IH]; intros has objs;
    cbn [contents_loop].
  - apply preserves_ret; apply _.
  - apply preserves_bind; [apply _|apply cache_grown_cached_object|].
    intros o. apply IH.
Qed.

Lemma cache_grown_prepare_message a subject contents use_cache :
  preserves (T:=T) cache_grown (_prepare_message env a subject contents use_cache).
Proof.
  unfold _prepare_message.
  apply preserves_bind; [apply _|apply preserves_gets; apply _|]. intros closed.
  destruct closed; [apply preserves_raise; apply _|].
  apply preserves_bind; [apply _| |].
  { unfold _prepare_contents. destruct contents as [[s|items]|];
      first [apply cache_grown_contents_loop | apply preserves_ret; apply _]. }
  intros [has objs].
  apply preserves_bind; [apply _|apply preserves_gets; apply _|]. intros un.
  destruct contents as [cs|]; [|apply preserves_ret; apply _].
  eapply preserves_weaken; [apply kept_cache_grown|].
  apply kept_attach_loop; first [apply cache_trace_blind|apply cache_heap_blind].
Qed.

(** Transmission does not touch the cache. *)
Lemma kept_cache_attempt_send rcpts m :
  preserves (T:=T) (kept cache) (_attempt_send (T:=T) rcpts m).
Proof.
  intros c. unfold _attempt_send.
  destruct (attempt_loop_outcome 3 0 c rcpts m)
    as (j & res & c' & Heq & _ & _ & (_ & _ & Hc & _) & _).
  rewrite Heq. exact Hc.
Qed.

Lemma kept_cache_msg_as_string msg :
  preserves (T:=T) (kept cache) (msg_as_string (T:=T) env msg).
Proof. intros c. reflexivity. Qed.
End CacheGrowth.

(** X12: [send] never removes or replaces an entry of the cache: every
    entry the cache had before the call it still has, with the same content
    object, after it, whatever the call returns or raises; and a call with
    [use_cache] off leaves the cache exactly as it was. *)
Theorem send_cache_only_grows {T} `{Transport T} env (c : Connect T)
    to subject contents cc bcc preview_only use_cache validate thr :
  cache c ⊆ cache (send env to subject contents cc bcc preview_only use_cache
                     validate thr c).2
  ∧ (use_cache = false →
     cache (send env to subject contents cc bcc preview_only use_cache
              validate thr c).2 = cache c).
Proof.
  split.
  - revert c. change (preserves (T:=T) cache_grown
      (send env to subject contents cc bcc preview_only use_cache validate thr)).
    unfold send. apply preserves_bind; [apply _| |].
    { eapply preserves_weaken; [apply kept_cache_grown|].
      apply kept_resolveAddresses, cache_trace_blind. }
    intros a. destruct (recipients a); [apply preserves_ret; apply _|].
    apply preserves_bind; [apply _|apply cache_grown_prepare_message|]. intros msg.
    eapply preserves_weaken; [apply kept_cache_grown|].
    apply preserves_bind; [apply _|apply kept_cache_msg_as_string|]. intros str.
    destruct preview_only; [apply preserves_ret; apply _|].
    apply kept_cache_attempt_send.
  - intros ->. revert c. change (preserves (T:=T) (kept cache)
      (send env to subject contents cc bcc preview_only false validate thr)).
    unfold send. apply preserves_bind; [apply _| |].
    { apply kept_resolveAddresses, cache_trace_blind. }
    intros a. destruct (recipients a); [apply preserves_ret; apply _|].
    apply preserves_bind; [apply _| |].
    { apply kept_prepare_message;
        first [apply cache_trace_blind|apply cache_heap_blind|by left]. }
    intros msg.
    apply preserves_bind; [apply _|apply kept_cache_msg_as_string|]. intros str.
    destruct preview_only; [apply preserves_ret; apply _|].
    apply kept_cache_attempt_send.
Qed.

(** ** [send] and [_prepare_message]: order of the steps, shape of the message *)

(** X13: on a session that is marked closed, a [send] with a non-empty
    recipient list raises [YagConnectionClosed] right after address
    resolution: nothing is classified, fetched, cached or transmitted, and
    the state is the one address resolution left. *)
Theorem send_on_closed_session {T} `{Transport T} env (c : Connect T)
    to subject contents cc bcc preview_only use_cache validate thr a c1 :
  is_closed c = true →
  _resolveAddresses env to cc bcc validate thr c = (Ok a, c1) →
  recipients a ≠ [] →
  send env to subject contents cc bcc preview_only use_cache validate thr c
  = (Raise (YagConnectionClosed "Login required again"), c1).
Proof.
  intros Hclosed Hres Hne.
  assert (is_closed c1 = true) as Hc1.
  { pose proof (kept_resolveAddresses env is_closed (λ _ _, eq_refl)
                  to cc bcc validate thr c) as Hk.
    rewrite Hres in Hk. unfold kept in Hk. cbn in Hk. congruence. }
  unfold send, bind at 1. rewrite Hres.
  destruct (recipients a) as [|r rs]; [done|].
  unfold bind at 1, _prepare_message, bind at 1, gets. by rewrite Hc1.
Qed.

(** The theorem at work on a session that [close] has closed, with
    contents that would need a fetch. *)
Lemma send_on_closed_session_witness :
  send sample_env (Some (AStr "a@x.org")) None (Some remote_image) None None
    false true true false closed_by_close
  = (Raise (YagConnectionClosed "Login required again"), closed_by_close).
Proof.
  apply (send_on_closed_session sample_env closed_by_close (Some (AStr "a@x.org"))
           None (Some remote_image) None None false true true false one_recipient
           closed_by_close).
  - reflexivity.
  - vm_compute. reflexivity.
  - discriminate.
Defined.

(** X14: on any transport, and whatever it returns or raises, [send]
    transmits to nobody but the recipients that [_resolveAddresses]
    returned, and nothing but the serialization of the message that
    [_prepare_message] composed in this very call: it makes at most three
    transmissions, all of them alike, and none with [preview_only].  The
    message is accounted for by the result: [False] after three
    transmissions, with the message appended to the unsent queue; the
    transport's answer, with the counter of sent messages one higher; and in
    every other case queue and counter are as they were. *)
Theorem send_transmits_to_resolved_recipients {T} `{Transport T} env
    (c : Connect T) to subject contents cc bcc preview_only use_cache validate thr :
  ∃ (j : nat) (rcpts : list string) (msg_string : string),
    (j ≤ 3)%nat
    ∧ transmissions
        (trace (send env to subject contents cc bcc preview_only use_cache
                  validate thr c).2)
      = transmissions (trace c) ++ replicate j (rcpts, msg_string)
    ∧ (preview_only = true → j = 0)
    ∧ ((1 ≤ j)%nat →
       ∃ a c1 msg c2,
         _resolveAddresses env to cc bcc validate thr c = (Ok a, c1)
         ∧ rcpts = recipients a
         ∧ _prepare_message env a subject contents use_cache c1 = (Ok msg, c2)
         ∧ msg_as_string env msg c2 = (Ok msg_string, c2))
    ∧ match (send env to subject contents cc bcc preview_only use_cache
               validate thr c).1 with
      | Ok RetFalse =>
          j = 3
          ∧ unsent (send env to subject contents cc bcc preview_only use_cache
                      validate thr c).2
            = unsent c ++ [(rcpts, msg_string)]
          ∧ num_mail_sent (send env to subject contents cc bcc preview_only
                             use_cache validate thr c).2
            = num_mail_sent c
      | Ok (RetSent _) =>
          (1 ≤ j)%nat
          ∧ unsent (send env to subject contents cc bcc preview_only use_cache
                      validate thr c).2
            = unsent c
          ∧ num_mail_sent (send env to subject contents cc bcc preview_only
                             use_cache validate thr c).2
            = num_mail_sent c + 1
      | Ok RetEmpty | Ok (RetPreview _ _) =>
          j = 0
          ∧ unsent (send env to subject contents cc bcc preview_only use_cache
                      validate thr c).2
            = unsent c
          ∧ num_mail_sent (send env to subject contents cc bcc preview_only
                             use_cache validate thr c).2
            = num_mail_sent c
      | Raise _ =>
          unsent (send env to subject contents cc bcc preview_only use_cache
                    validate thr c).2
          = unsent c
          ∧ num_mail_sent (send env to subject contents cc bcc preview_only
                             use_cache validate thr c).2
            = num_mail_sent c
      end.
Proof.
  destruct (send env to subject contents cc bcc preview_only use_cache
              validate thr c) as [res c'] eqn:Es.
  cbn [fst snd]. unfold send, bind at 1 in Es.
  pose proof (quiet_resolveAddresses env to cc bcc validate thr c)
    as (_ & Hu1 & Hn1 & Ht1).
  destruct (_resolveAddresses env to cc bcc validate thr c) as [[a|e] c1] eqn:Hres;
    cbn [snd] in Hu1, Hn1, Ht1.
  2: { injection Es as <- <-. exists 0, [], "". cbn [replicate].
       rewrite app_nil_r. split; [lia|]. split; [done|]. split; [done|].
       split; [lia|]. done. }
  destruct (recipients a) as [|r rs] eqn:Er.
  { injection Es as <- <-. exists 0, [], "". cbn [replicate].
    rewrite app_nil_r. split; [lia|]. split; [done|]. split; [done|].
    split; [lia|]. done. }
  unfold bind at 1 in Es.
  pose proof (quiet_prepare_message env a subject contents use_cache c1)
    as (_ & Hu2 & Hn2 & Ht2).
  destruct (_prepare_message env a subject contents use_cache c1)
    as [[msg|e] c2] eqn:Hmsg; cbn [snd] in Hu2, Hn2, Ht2.
  2: { injection Es as <- <-. exists 0, [], "". cbn [replicate].
       rewrite app_nil_r. split; [lia|]. split; [congruence|]. split; [done|].
       split; [lia|]. split; congruence. }
  unfold bind at 1 in Es.
  destruct (msg_as_string_pure env msg c2) as [str Hs]. rewrite Hs in Es.
  destruct preview_only.
  { injection Es as <- <-. exists 0, [], "". cbn [replicate].
    rewrite app_nil_r. split; [lia|]. split; [congruence|]. split; [done|].
    split; [lia|]. split; [done|]. split; congruence. }
  unfold _attempt_send in Es.
  destruct (attempt_loop_outcome 3 0 c2 (r :: rs) str)
    as (j & res' & c3 & Heq & Hj & Htr & _ & Hacc).
  rewrite Heq in Es. injection Es as <- <-.
  exists j, (r :: rs), str. split; [exact Hj|].
  split; [rewrite Htr; congruence|]. split; [discriminate|].
  split.
  { intros _. exists a, c1, msg, c2. rewrite Er. auto. }
  destruct res' as [[| | |]|e]; try done.
  - destruct Hacc as (? & ? & ?). split; [done|]. split; congruence.
  - destruct Hacc as (? & ? & ?). split; [done|]. split; congruence.
  - destruct Hacc as (? & ? & ? & ?). split; congruence.
Qed.

Section Shape.
Context {T : Type} `{Transport T} (env : Env).

Lemma any_image_app objs1 objs2 :
  any_image (objs1 ++ objs2) = any_image objs1 || any_image objs2.
Proof. apply existsb_app. Qed.

(** The loop of [_prepare_contents] appends one content object per
    item. *)
Lemma contents_loop_shape use_cache items has objs (c c1 : Connect T) has' objs' :
  contents_loop env use_cache items has objs c = (Ok (has', objs'), c1) →
  ∃ new, objs' = objs ++ new
         ∧ length new = length items
         ∧ has' = has || any_image new.
Proof.
  revert has objs c. induction items as [|item items IH]; intros has objs c.
  - cbn. intros [= <- <- <-]. exists []. by rewrite app_nil_r, orb_false_r.
  - cbn [contents_loop]. unfold bind at 1.
    destruct (cached_object env use_cache item c) as [[o|e] ca]; [|discriminate].
    intros Hrest. apply IH in Hrest as (new & -> & Hlen & ->).
    exists (o :: new). rewrite <- app_assoc. split; [done|].
    split; [cbn; by rewrite Hlen|].
    cbn. by destruct (String.eqb (main_type o) "image"), has.
Qed.

(** Each content object of the loop is what [cached_object] returned for
    the item at its place. *)
Lemma contents_loop_pointwise use_cache items has objs (c c1 : Connect T) has' objs' :
  contents_loop env use_cache items has objs c = (Ok (has', objs'), c1) →
  ∃ new, objs' = objs ++ new
         ∧ Forall2 (λ item o, ∃ ci ci' : Connect T,
                      cached_object env use_cache item ci = (Ok o, ci'))
             items new.
Proof.
  revert has objs c. induction items as [|item items IH]; intros has objs c.
  - cbn. intros [= <- <- <-]. exists []. by rewrite app_nil_r.
  - cbn [contents_loop]. unfold bind at 1.
    destruct (cached_object env use_cache item c) as [[o|e] ca] eqn:Eo;
      [|discriminate].
    intros Hrest. apply IH in Hrest as (new & -> & Hall).
    exists (o :: new). rewrite <- app_assoc. split; [done|].
    constructor; [by exists c, ca|exact Hall].
Qed.

Lemma inline_texts_cons p pairs :
  inline_texts env (p :: pairs)
  = match inline_text env p with
    | Some t => t :: inline_texts env pairs
    | None => inline_texts env pairs
    end.
Proof. reflexivity. Qed.

(** The loop of [_prepare_message] attaches one part per pair and, for each
    image, the inline text with its content-ID; it leaves headers and
    preamble alone. *)
Lemma attach_loop_shape pairs msg (c c1 : Connect T) msg' :
  attach_loop env pairs msg c = (Ok msg', c1) →
  msg_headers msg' = msg_headers msg
  ∧ msg_preamble msg' = msg_preamble msg
  ∧ msg_parts msg' = msg_parts msg ++ (mime_object_ref <$> pairs.*1)
  ∧ length (msg_alternative msg')
    = (length (msg_alternative msg) + count_images pairs.*1)%nat
  ∧ msg_alternative msg' = msg_alternative msg ++ inline_texts env pairs.
Proof.
  revert msg c. induction pairs as [|[o item] pairs IH]; intros msg c.
  - cbn. intros [= <- <-]. rewrite !app_nil_r. split; [done|]. split; [done|].
    split; [done|]. split; [|done]. unfold count_images. cbn. lia.
  - cbn [attach_loop]. unfold bind at 1.
    rewrite inline_texts_cons. unfold inline_text. cbn [fst snd].
    destruct (String.eqb (main_type o) "image") eqn:Eimg.
    + assert (∀ hashed_ref (c0 : Connect T) r c0',
                (do _ <- mutate (mime_object_ref o)
                           (add_header "Content-ID" ("<" +:+ hashed_ref +:+ ">"));
                 do _ <- mutate (mime_object_ref o) (encode_base64 env);
                 ret (alternative_attach (MIMEText (img_tag hashed_ref) "html") msg))
                  c0 = (r, c0') →
                r = Ok (alternative_attach (MIMEText (img_tag hashed_ref) "html") msg))
        as Himg.
      { intros hashed_ref c0 r c0'. unfold bind, mutate, modify, ret.
        by intros [= <- <-]. }
      unfold bind at 1.
      destruct item as [s|kv]; cbn [content_id].
      * unfold ret at 1.
        destruct (bind (mutate _ _) _ _) as [r c0'] eqn:Em.
        apply Himg in Em as ->.
        intros Hrest. apply IH in Hrest as (Hh & Hp & Hparts & Halt & Hin).
        cbn in Hh, Hp, Hparts, Halt, Hin. rewrite Hh, Hp, Hparts, Halt, Hin.
        split; [done|]. split; [done|].
        split; [by rewrite <- app_assoc|]. split.
        -- unfold count_images. cbn. rewrite Eimg. rewrite length_app. cbn. lia.
        -- cbn. by rewrite <- app_assoc.
      * destruct (List.last (Some <$> kv.*2) None) as [v|]; [|discriminate].
        unfold ret at 1.
        destruct (bind (mutate _ _) _ _) as [r c0'] eqn:Em.
        apply Himg in Em as ->.
        intros Hrest. apply IH in Hrest as (Hh & Hp & Hparts & Halt & Hin).
        cbn in Hh, Hp, Hparts, Halt, Hin. rewrite Hh, Hp, Hparts, Halt, Hin.
        split; [done|]. split; [done|].
        split; [by rewrite <- app_assoc|]. split.
        -- unfold count_images. cbn. rewrite Eimg. rewrite length_app. cbn. lia.
        -- cbn. by rewrite <- app_assoc.
    + unfold ret at 1. cbn beta iota.
      intros Hrest. apply IH in Hrest as (Hh & Hp & Hparts & Halt & Hin).
      cbn in Hh, Hp, Hparts, Halt, Hin. rewrite Hh, Hp, Hparts, Halt, Hin.
      split; [done|]. split; [done|].
      split; [by rewrite <- app_assoc|]. split; [|done].
      unfold count_images. cbn. rewrite Eimg. lia.
Qed.

Lemma add_headers_spec un a subject :
  msg_headers (_add_recipients un a (_add_subject subject (mkMessage [] None [] [])))
  = subject_headers subject
    ++ [("user", un); ("To", default un (entries a !! "To"))]
    ++ entry_header a "cc" "Cc" ++ entry_header a "bcc" "Bcc".
Proof.
  unfold _add_recipients, set_if_present, entry_header.
  assert (msg_headers (_add_subject subject (mkMessage [] None [] []))
          = subject_headers subject) as Hs.
  { destruct subject as [[s|ws]|]; cbn; try done.
    - by destruct s.
    - by destruct ws. }
  destruct (entries a !! "To"), (entries a !! "cc"), (entries a !! "bcc");
    cbn; rewrite Hs, <- ?app_assoc; reflexivity.
Qed.
End Shape.

Section Composed.
Context {T : Type} `{Transport T} (env : Env).

(** The message that carries the headers has nothing else yet. *)
Lemma base_message_empty un a subject :
  let base := _add_recipients un a (_add_subject subject (mkMessage [] None [] [])) in
  msg_preamble base = None ∧ msg_alternative base = [] ∧ msg_parts base = [].
Proof.
  unfold _add_recipients, set_if_present.
  destruct subject as [[[|]|[|]]|]; cbn;
    destruct (entries a !! "To"), (entries a !! "cc"), (entries a !! "bcc"); done.
Qed.

(** A successful composition, taken apart: the session was open, the
    contents were classified, and the message is the loop's result on the
    message that carries the headers and the preamble. *)
Lemma prepare_message_inv a subject contents use_cache (c c' : Connect T) msg :
  _prepare_message env a subject contents use_cache c = (Ok msg, c') →
  ∃ has objs c1 msg0,
    is_closed c = false
    ∧ _prepare_contents env contents use_cache c = (Ok (has, objs), c1)
    ∧ msg_headers msg0
      = msg_headers (_add_recipients (username c) a
                       (_add_subject subject (mkMessage [] None [] [])))
    ∧ msg_preamble msg0 = (if has then Some preamble_notice else None)
    ∧ msg_alternative msg0 = [] ∧ msg_parts msg0 = []
    ∧ match contents with
      | None => msg = msg0 ∧ c' = c1
      | Some cs =>
          attach_loop env (zip objs (iter_contents cs)) msg0 c1 = (Ok msg, c')
      end.
Proof.
  unfold _prepare_message, bind at 1, gets. cbn beta iota.
  destruct (is_closed c); [discriminate|].
  unfold bind at 1.
  pose proof (kept_prepare_contents env username (λ _ _, eq_refl) (λ _ _, eq_refl)
                contents use_cache (or_intror (λ _ _, eq_refl)) c) as Hun.
  destruct (_prepare_contents env contents use_cache c) as [[[has objs]|e] c1];
    [|discriminate].
  unfold kept in Hun. cbn in Hun.
  unfold bind at 1. cbn beta iota. rewrite Hun.
  destruct (base_message_empty (username c) a subject) as (Hp & Ha & Hps).
  set (base := _add_recipients (username c) a
                 (_add_subject subject (mkMessage [] None [] []))) in *.
  intros Hrest. exists has, objs, c1.
  exists (if has then msg_set_preamble preamble_notice base else base).
  split; [done|]. split; [done|].
  split; [by destruct has|]. split; [by destruct has|].
  split; [by destruct has|]. split; [by destruct has|].
  destruct contents as [cs|]; [exact Hrest|].
  unfold ret in Hrest. by injection Hrest as <- <-.
Qed.
End Composed.

(** X15: for contents given as a list, the composed message is made of
    what the classification returned: the content objects are those of
    [_prepare_contents], each the result of [cached_object] for the item
    at its place; the attached parts are these objects, one per item and
    in the items' order; the alternative part holds, for each object
    classified as an image and in that order, the image tag with the
    item's content-ID, and nothing else; and the preamble notice is there
    exactly when some object is an image. *)
Theorem prepare_message_one_part_per_item {T} `{Transport T} env
    (c c' : Connect T) a subject (items : list content_item) use_cache msg :
  _prepare_message env a subject (Some (ContList items)) use_cache c = (Ok msg, c') →
  ∃ (objs : list content_object) (c1 : Connect T),
    _prepare_contents env (Some (ContList items)) use_cache c
    = (Ok (any_image objs, objs), c1)
    ∧ Forall2 (λ item o, ∃ ci ci' : Connect T,
                 cached_object env use_cache item ci = (Ok o, ci'))
        items objs
    ∧ length objs = length items
    ∧ msg_parts msg = mime_object_ref <$> objs
    ∧ msg_alternative msg = inline_texts env (zip objs items)
    ∧ length (msg_alternative msg) = count_images objs
    ∧ msg_preamble msg = (if any_image objs then Some preamble_notice else None).
Proof.
  intros Hmsg.
  apply prepare_message_inv in Hmsg
    as (has & objs & c1 & msg0 & _ & Hcont & _ & Hpre & Halt & Hparts & Hloop).
  pose proof Hcont as Hcont'. cbn in Hcont'.
  pose proof Hcont' as Hpoint.
  apply contents_loop_shape in Hcont' as (new & Hobjs & Hlen & Hhas).
  apply contents_loop_pointwise in Hpoint as (new' & Hobjs' & Hall).
  cbn in Hobjs, Hhas, Hobjs'. subst objs has new'.
  apply attach_loop_shape in Hloop as (_ & Hp & Hps & Ha & Hin).
  cbn [iter_contents] in Hps, Ha, Hin.
  rewrite fst_zip in Hps, Ha by lia.
  exists new, c1. rewrite Hps, Ha, Hin, Hp, Hpre, Hparts, Halt. auto 10.
Qed.

(** The theorem at work on an image and two texts. *)
Lemma prepare_message_one_part_per_item_witness :
  inline_texts sample_env (zip three_objects three_items)
  = [MIMEText (img_tag "8") "html"]
  ∧ ∃ (objs : list content_object) (c1 : Connect scripted),
      _prepare_contents sample_env (Some (ContList three_items)) true
        preview_resolved.2
      = (Ok (any_image objs, objs), c1)
      ∧ Forall2 (λ item o, ∃ ci ci' : Connect scripted,
                   cached_object sample_env true item ci = (Ok o, ci'))
          three_items objs
      ∧ length objs = length three_items
      ∧ msg_parts preview_message = mime_object_ref <$> objs
      ∧ msg_alternative preview_message = inline_texts sample_env (zip objs three_items)
      ∧ length (msg_alternative preview_message) = count_images objs
      ∧ msg_preamble preview_message
        = (if any_image objs then Some preamble_notice else None).
Proof.
  split; [vm_compute; reflexivity|].
  apply (prepare_message_one_part_per_item sample_env preview_resolved.2
           preview_composed.2 preview_addresses (Some (SubjStr "hi")) three_items
           true preview_message).
  vm_compute. reflexivity.
Defined.

(** X16: whatever the contents, the headers of a composed message are, in
    this order: [Subject] when the subject is not empty (a list of words
    joined by spaces), [user] with the user's display name, [To] with the
    ['To'] entry of the addresses or else the display name, then [Cc] and
    [Bcc] when the addresses have the entries ['cc'] and ['bcc']. *)
Theorem prepare_message_headers {T} `{Transport T} env (c c' : Connect T)
    a subject contents use_cache msg :
  _prepare_message env a subject contents use_cache c = (Ok msg, c') →
  msg_headers msg
  = subject_headers subject
    ++ [("user", username c); ("To", default (username c) (entries a !! "To"))]
    ++ entry_header a "cc" "Cc" ++ entry_header a "bcc" "Bcc".
Proof.
  intros Hmsg.
  apply prepare_message_inv in Hmsg
    as (has & objs & c1 & msg0 & _ & _ & Hh & _ & _ & _ & Hloop).
  rewrite <- add_headers_spec, <- Hh.
  destruct contents as [cs|].
  - by apply attach_loop_shape in Hloop as (-> & _).
  - by destruct Hloop as [-> _].
Qed.

(** The theorem at work on a message with a subject of two words and a
    copy given as a mapping. *)
Lemma prepare_message_headers_witness :
  headed_composed = (Ok headed_message, headed_composed.2)
  ∧ msg_headers headed_message
    = subject_headers (Some (SubjList ["Hello"; "there"]))
      ++ [("user", username open_session);
          ("To", default (username open_session) (entries copy_addresses !! "To"))]
      ++ entry_header copy_addresses "cc" "Cc"
      ++ entry_header copy_addresses "bcc" "Bcc".
Proof.
  split; [vm_compute; reflexivity|].
  apply (prepare_message_headers sample_env open_session headed_composed.2
           copy_addresses (Some (SubjList ["Hello"; "there"]))
           (Some (ContStr "plain")) false headed_message).
  vm_compute. reflexivity.
Defined.

(** ** The cache, once more *)

(** X17: for contents given as a list of strings, a cached
    [_prepare_contents] that has succeeded once is answered from the cache
    ever after: run again in any environment, from any state whose cache
    still has the entries, it returns the same content objects and changes
    nothing, so that it fetches and reads nothing. *)
Theorem prepare_contents_answered_from_cache {T} `{Transport T} env env'
    (items : list content_item) (c c1 c2 : Connect T) has objs :
  all_strings items →
  _prepare_contents env (Some (ContList items)) true c = (Ok (has, objs), c1) →
  cache c1 ⊆ cache c2 →
  _prepare_contents env' (Some (ContList items)) true c2 = (Ok (has, objs), c2).
Proof.
  intros Hstr Hfirst Hc2.
  by apply (prepare_contents_cached_again env items c c1 has objs Hstr Hfirst env' c2).
Qed.

(** The theorem at work: three items classified, then again after the
    remote image has changed. *)
Lemma prepare_contents_answered_from_cache_witness :
  _prepare_contents changed_env (Some (ContList three_items)) true after_three_items
  = (Ok (true, three_objects), after_three_items).
Proof.
  apply (prepare_contents_answered_from_cache sample_env changed_env three_items
           open_session after_three_items after_three_items true three_objects).
  - repeat constructor; eauto.
  - vm_compute. reflexivity.
  - reflexivity.
Defined.

(** ** [_get_mime_object]: files and fetched resources *)

Section Classify.
Context {T : Type} `{Transport T} (env : Env).

Lemma item_source_name item s :
  item_source item = Some s →
  item = CStr s ∧ item_name item = basename s
  ∨ item = CDict [(s, item_name item)].
Proof.
  destruct item as [s'|[|[k v] [|]]]; cbn; try discriminate;
    intros [= <-]; auto.
Qed.

(** The first step of [_get_mime_object]: source and name. *)
Lemma get_mime_object_start item s (c : Connect T) :
  item_source item = Some s →
  _get_mime_object env item c
  = (if isfile env s
     then do _ <- emit (EvReadFile s);
          typed_object env s (item_name item) (read_file env s) None
     else do _ <- emit (EvHttpGet s);
          match http_get env s with
          | Fetched content None => typed_object env s (item_name item) content None
          | Fetched content (Some ct) =>
              match split_on slash ct with
              | [m; sub] => typed_object env s (item_name item) content (Some (m, sub))
              | _ => literal_object env s
              end
          | FetchError => literal_object env s
          end) c.
Proof.
  intros Hsrc. unfold _get_mime_object.
  destruct (item_source_name item s Hsrc) as [[-> ->]| ->]; reflexivity.
Qed.
End Classify.

(** X18: an existing file whose guessed type comes with an encoding (a
    compressed file) is classified [application/octet-stream], whatever
    type was guessed; the encoding is recorded, the payload is what was read
    from the file, the part is named after the item, and no request is
    made. *)
Theorem encoded_file_is_octet_stream {T} `{Transport T} env (c : Connect T)
    (item : content_item) (s ct m sub enc : string) :
  item_source item = Some s →
  isfile env s = true →
  guess_type env s = (Some ct, Some enc) →
  split_on slash ct = [m; sub] →
  _get_mime_object env item c
  = (Ok (mkContent (length (heap c)) (Some enc) "application" "octet-stream"),
     set_heap (heap c ++ [set_payload (read_file env s)
                            (MIMEBase "application" "octet-stream" (item_name item))])
       (set_trace (trace c ++ [EvReadFile s]) c)).
Proof.
  intros Hsrc Hfile Hguess Hsplit.
  rewrite (get_mime_object_start env item s c Hsrc), Hfile.
  unfold typed_object. run. rewrite Hguess. run. rewrite Hsplit. reflexivity.
Qed.

(** The theorem at work on a compressed archive. *)
Lemma encoded_file_is_octet_stream_witness :
  _get_mime_object odd_env (CStr "/tmp/backup.tar.gz") open_session
  = (Ok (mkContent (length (heap open_session)) (Some "gzip") "application"
           "octet-stream"),
     set_heap (heap open_session
               ++ [set_payload (read_file odd_env "/tmp/backup.tar.gz")
                     (MIMEBase "application" "octet-stream"
                        (item_name (CStr "/tmp/backup.tar.gz")))])
       (set_trace (trace open_session ++ [EvReadFile "/tmp/backup.tar.gz"])
          open_session)).
Proof.
  apply (encoded_file_is_octet_stream odd_env open_session
           (CStr "/tmp/backup.tar.gz") "/tmp/backup.tar.gz" "application/x-tar"
           "application" "x-tar" "gzip"); reflexivity.
Defined.

(** X19: for a source that is not a file and is fetched with a
    [content-type] header of the form [main/sub], the header alone decides
    the type (the name's extension is not looked at), the payload is the
    fetched content and the part is named after the item. *)
Theorem fetched_type_from_header {T} `{Transport T} env (c : Connect T)
    (item : content_item) (s body ct m sub : string) :
  item_source item = Some s →
  isfile env s = false →
  http_get env s = Fetched body (Some ct) →
  split_on slash ct = [m; sub] →
  _get_mime_object env item c
  = (Ok (mkContent (length (heap c)) None m sub),
     set_heap (heap c ++ [set_payload body (MIMEBase m sub (item_name item))])
       (set_trace (trace c ++ [EvHttpGet s]) c)).
Proof.
  intros Hsrc Hfile Hget Hsplit.
  rewrite (get_mime_object_start env item s c Hsrc), Hfile.
  run. rewrite Hget, Hsplit. reflexivity.
Qed.

(** The theorem at work on a remote image given with an explicit name. *)
Lemma fetched_type_from_header_witness :
  _get_mime_object sample_env (CDict [("http://example.org/logo.png", "logo")])
    open_session
  = (Ok (mkContent (length (heap open_session)) None "image" "png"),
     set_heap (heap open_session
               ++ [set_payload "PNGDATA"
                     (MIMEBase "image" "png"
                        (item_name (CDict [("http://example.org/logo.png", "logo")])))])
       (set_trace (trace open_session ++ [EvHttpGet "http://example.org/logo.png"])
          open_session)).
Proof.
  apply (fetched_type_from_header sample_env open_session
           (CDict [("http://example.org/logo.png", "logo")])
           "http://example.org/logo.png" "PNGDATA" "image/png" "image" "png");
    reflexivity.
Defined.

(** X20: when the fetch succeeds but the [content-type] header does not
    split at slashes into exactly two parts, the item is classified as
    literal text: the MIME part is a text whose payload is the source
    string itself, and the fetched content is dropped. *)
Theorem fetched_with_odd_header_is_literal {T} `{Transport T} env (c : Connect T)
    (item : content_item) (s body ct : string) :
  item_source item = Some s →
  isfile env s = false →
  http_get env s = Fetched body (Some ct) →
  length (split_on slash ct) ≠ 2 →
  parses env s = true →
  _get_mime_object env item c
  = (Ok (mkContent (length (heap c)) None "text" (spec_literal_sub_type env s)),
     set_heap (heap c ++ [MIMEText s (spec_literal_sub_type env s)])
       (set_trace (trace c ++ [EvHttpGet s]) c)).
Proof.
  intros Hsrc Hfile Hget Hsplit Hparse.
  rewrite (get_mime_object_start env item s c Hsrc), Hfile.
  unfold bind at 1, emit, modify. cbn beta iota. rewrite Hget.
  destruct (split_on slash ct) as [|m [|sub [|x rest]]];
    try (rewrite literal_object_spec by done; reflexivity).
  by destruct Hsplit.
Qed.

(** The theorem at work on a server that answers with the content type
    [text]. *)
Lemma fetched_with_odd_header_is_literal_witness :
  _get_mime_object odd_env (CStr "http://example.org/odd") open_session
  = (Ok (mkContent (length (heap open_session)) None "text"
           (spec_literal_sub_type odd_env "http://example.org/odd")),
     set_heap (heap open_session
               ++ [MIMEText "http://example.org/odd"
                     (spec_literal_sub_type odd_env "http://example.org/odd")])
       (set_trace (trace open_session ++ [EvHttpGet "http://example.org/odd"])
          open_session)).
Proof.
  apply (fetched_with_odd_header_is_literal odd_env open_session
           (CStr "http://example.org/odd") "http://example.org/odd" "BODY" "text").
  - reflexivity.
  - reflexivity.
  - reflexivity.
  - vm_compute. lia.
  - reflexivity.
Defined.

Section Allocation.
Context {T : Type} `{Transport T} (env : Env).

Lemma literal_object_allocated s (c c' : Connect T) o :
  literal_object env s c = (Ok o, c') → allocated c c' o.
Proof.
  unfold literal_object, allocated.
  destruct (lxml_fromstring env) as [f|]; run.
  - destruct (f s) as [t|e]; [|discriminate].
    destruct (_ || _); intros [= <- <-]; cbn; eauto 10.
  - intros [= <- <-]; cbn; eauto 10.
Qed.

Lemma typed_object_allocated s n content types (c c' : Connect T) o :
  typed_object env s n content types c = (Ok o, c') → allocated c c' o.
Proof.
  unfold typed_object, allocated. run.
  destruct types as [[m sub]|]; run.
  - intros [= <- <-]; cbn; eauto 10.
  - destruct (guess_type env s) as [[ct|] enc]; run.
    + destruct (split_on slash ct) as [|m [|sub [|x rest]]]; run;
        try discriminate.
      destruct enc; intros [= <- <-]; cbn; eauto 10.
    + intros [= <- <-]; cbn; eauto 10.
Qed.

Lemma allocated_after_emit e (c c' : Connect T) o :
  allocated (set_trace (trace c ++ [e]) c) c' o → allocated c c' o.
Proof. done. Qed.

Lemma get_mime_object_allocated item (c c' : Connect T) o :
  _get_mime_object env item c = (Ok o, c') → allocated c c' o.
Proof.
  intros Hget.
  unfold _get_mime_object in Hget. unfold bind at 1 in Hget.
  destruct (match item with
            | CStr s => ret (s, basename s)
            | CDict kv => _
            end c) as [[[s n]|e] c0] eqn:Eitem; [|discriminate].
  assert (c0 = c) as ->.
  { destruct item as [s'|[|[k v] [|]]]; cbn in Eitem; by injection Eitem. }
  destruct (isfile env s).
  + unfold bind at 1, emit, modify in Hget.
    apply typed_object_allocated in Hget. by eapply allocated_after_emit.
  + unfold bind at 1, emit, modify in Hget. cbn beta iota in Hget.
    eapply allocated_after_emit.
    destruct (http_get env s) as [content [ct|]|].
    * destruct (split_on slash ct) as [|m [|sub [|x rest]]];
        first [by eapply typed_object_allocated | by eapply literal_object_allocated].
    * by eapply typed_object_allocated.
    * by eapply literal_object_allocated.
Qed.
End Allocation.

(** X21: every successful classification puts exactly one new MIME object
    on the heap, with no header added yet, and returns a content object
    that refers to it and names its types: the [main_type] and [sub_type]
    of the content object are those of the MIME object, for files, fetched
    resources and literal text alike.  The cache and the transport side are
    not touched. *)
Theorem classified_object_matches_its_part {T} `{Transport T} env
    (c c' : Connect T) (item : content_item) (o : content_object) :
  _get_mime_object env item c = (Ok o, c') →
  (∃ m, heap c' = heap c ++ [m]
        ∧ mime_object_ref o = length (heap c)
        ∧ mime_main m = main_type o
        ∧ mime_sub m = sub_type o
        ∧ mime_headers m = [])
  ∧ cache c' = cache c
  ∧ unsent c' = unsent c
  ∧ transmissions (trace c') = transmissions (trace c).
Proof.
  intros Hget. split.
  - by apply (get_mime_object_allocated env item c c' o).
  - pose proof (cache_kept_get_mime_object env item c) as Hc.
    pose proof (quiet_get_mime_object env item c) as (_ & Hu & _ & Htr).
    rewrite Hget in Hc, Hu, Htr. auto.
Qed.

(** The theorem at work on a file given with an explicit name. *)
Lemma classified_object_matches_its_part_witness :
  (∃ m, heap (_get_mime_object sample_env (CDict [("logo.png", "logo")])
                open_session).2
        = heap open_session ++ [m]
        ∧ mime_object_ref (mkContent 0 None "image" "png") = length (heap open_session)
        ∧ mime_main m = main_type (mkContent 0 None "image" "png")
        ∧ mime_sub m = sub_type (mkContent 0 None "image" "png")
        ∧ mime_headers m = [])
  ∧ cache (_get_mime_object sample_env (CDict [("logo.png", "logo")])
             open_session).2 = cache open_session
  ∧ unsent (_get_mime_object sample_env (CDict [("logo.png", "logo")])
              open_session).2 = unsent open_session
  ∧ transmissions (trace (_get_mime_object sample_env (CDict [("logo.png", "logo")])
                            open_session).2)
    = transmissions (trace open_session).
Proof.
  apply (classified_object_matches_its_part sample_env open_session
           (_get_mime_object sample_env (CDict [("logo.png", "logo")]) open_session).2
           (CDict [("logo.png", "logo")]) (mkContent 0 None "image" "png")).
  vm_compute. reflexivity.
Defined.

(** ** [feedback] *)

Section Feedback.
Context {T : Type} `{Transport T} (env : Env).

(** Address resolution for a single string, with validation. *)
Lemma resolve_single_string (x : string) (c : Connect T) :
  _resolveAddresses env (Some (AStr x)) None None true false c
  = if validate_email_with_regex env x
    then (Ok (mkAddresses [x] (<["To" := x]> ∅)), c)
    else (Ok (mkAddresses [] (<["To" := x]> ∅)),
          set_trace (trace c ++ [invalid_logged x]) c).
Proof.
  unfold _resolveAddresses. run.
  destruct (validate_email_with_regex env x); run; [reflexivity|].
  by rewrite String.eqb_refl.
Qed.
End Feedback.

(** X22: whatever the message and the transport, [feedback] transmits to
    nobody but [kootenpv@gmail.com]: it makes at most three transmissions,
    all of one message string and all to that single recipient; and when
    that address does not pass validation it sends nothing and returns
    normally. *)
Theorem feedback_reaches_only_the_author {T} `{Transport T} env (c : Connect T)
    (message : option contents_arg) :
  ∃ (j : nat) (msg_string : string),
    (j ≤ 3)%nat
    ∧ transmissions (trace (feedback env message c).2)
      = transmissions (trace c) ++ replicate j (["kootenpv@gmail.com"], msg_string)
    ∧ (validate_email_with_regex env "kootenpv@gmail.com" = false →
       j = 0 ∧ (feedback env message c).1 = Ok tt).
Proof.
  destruct (feedback env message c) as [r c'] eqn:Ef. cbn [fst snd].
  unfold feedback, send in Ef. unfold bind at 1 in Ef. unfold bind at 1 in Ef.
  rewrite resolve_single_string in Ef.
  destruct (validate_email_with_regex env "kootenpv@gmail.com").
  - cbn [recipients] in Ef. unfold bind at 1 in Ef.
    pose proof (quiet_prepare_message env
                  (mkAddresses ["kootenpv@gmail.com"] (<["To" := "kootenpv@gmail.com"]> ∅))
                  (Some (SubjStr "Yagmail feedback")) message false c)
      as (_ & _ & _ & Htr).
    destruct (_prepare_message env _ _ message false c) as [[msg|e] c1].
    + unfold bind at 1 in Ef.
      destruct (msg_as_string_pure env msg c1) as [str Hs]. rewrite Hs in Ef.
      unfold _attempt_send in Ef.
      destruct (attempt_loop_outcome 3 0 c1 ["kootenpv@gmail.com"] str)
        as (j & res & c2 & Heq & Hj & Htr' & _).
      rewrite Heq in Ef. exists j, str. split; [exact Hj|].
      split; [|discriminate].
      cbn [snd] in Htr.
      destruct res; cbn in Ef; injection Ef as <- <-; by rewrite Htr', Htr.
    + cbn in Ef. injection Ef as <- <-.
      exists 0, "". split; [lia|]. cbn [snd] in Htr. cbn [replicate].
      rewrite Htr, app_nil_r. split; [reflexivity|discriminate].
  - cbn in Ef. injection Ef as <- <-.
    exists 0, "". split; [lia|]. cbn [replicate trace set_trace].
    rewrite transmissions_app. cbn. rewrite !app_nil_r. auto.
Qed.

(** ** Single-string contents, embedded images, look-ups *)



(** X25: a classification makes exactly one look-up, whatever comes of
    it: an existing file is read and never requested, any other source is
    requested once and never read. *)
Theorem classification_looks_up_once {T} `{Transport T} env (c : Connect T)
    (item : content_item) (s : string) :
  item_source item = Some s →
  trace (_get_mime_object env item c).2 = trace c ++ [lookup_event env s].
Proof.
  intros Hsrc. rewrite (get_mime_object_start env item s c Hsrc).
  unfold lookup_event. destruct (isfile env s).
  - unfold bind at 1, emit, modify. cbn beta iota.
    apply (kept_typed_object env trace (λ _ _, eq_refl)).
  - unfold bind at 1, emit, modify. cbn beta iota.
    destruct (http_get env s) as [content [ct|]|].
    + destruct (split_on slash ct) as [|m [|sub [|x rest]]];
        first [apply (kept_typed_object env trace (λ _ _, eq_refl))
              |apply (kept_literal_object env trace (λ _ _, eq_refl))].
    + apply (kept_typed_object env trace (λ _ _, eq_refl)).
    + apply (kept_literal_object env trace (λ _ _, eq_refl)).
Qed.

(** The theorem at work on a file and on a text. *)
Lemma classification_looks_up_once_witness :
  trace (_get_mime_object sample_env (CDict [("logo.png", "logo")]) open_session).2
  = trace open_session ++ [lookup_event sample_env "logo.png"].
Proof.
  apply (classification_looks_up_once sample_env open_session
           (CDict [("logo.png", "logo")]) "logo.png").
  reflexivity.
Defined.

(** X24: an item classified as an image is embedded: composing a message
    for the one-item list, without the cache, gives the new MIME object a
    [Content-ID] header with the item's content-ID in angle brackets (the
    explicit name of a mapping item, else the absolute hash of the source's
    basename) and a base64 payload with its [Content-Transfer-Encoding]
    header; the message carries that part, an inline HTML image text that
    refers to the same content-ID, and the preamble notice. *)
Theorem image_item_embedded {T} `{Transport T} env (c c1 : Connect T)
    a subject (item : content_item) (o : content_object) (h : string) :
  is_closed c = false →
  _get_mime_object env item c = (Ok o, c1) →
  String.eqb (main_type o) "image" = true →
  content_id env item = Some h →
  ∃ m msg c2,
    heap c1 = heap c ++ [m]
    ∧ _prepare_message env a subject (Some (ContList [item])) false c = (Ok msg, c2)
    ∧ heap c2
      = heap c
        ++ [mkMime (mime_main m) (mime_sub m) (mime_name m)
              [("Content-ID", "<" +:+ h +:+ ">");
               ("Content-Transfer-Encoding", "base64")]
              (b64encode env (mime_payload m))]
    ∧ msg_parts msg = [length (heap c)]
    ∧ msg_alternative msg = [MIMEText (img_tag h) "html"]
    ∧ msg_preamble msg = Some preamble_notice.
Proof.
  intros Hclosed Hget Himg Hid.
  destruct (get_mime_object_allocated env item c c1 o Hget)
    as (m & Hheap & Href & _ & _ & Hhdr).
  destruct (base_message_empty (username c1) a subject) as (Hp & Ha & Hps).
  pose proof (kept_get_mime_object env username (λ _ _, eq_refl) (λ _ _, eq_refl)
                item c) as Hun.
  rewrite Hget in Hun. unfold kept in Hun. cbn in Hun.
  exists m.
  unfold _prepare_message, _prepare_contents. cbn [contents_loop cached_object].
  unfold bind at 1, gets. cbn beta iota. rewrite Hclosed.
  unfold bind at 1. unfold bind at 1. rewrite Hget.
  unfold ret at 1. cbn beta iota. rewrite Himg.
  unfold bind at 1. cbn beta iota.
  cbn [iter_contents app zip zip_with attach_loop].
  unfold bind at 1. rewrite Himg. unfold bind at 1.
  assert ((match item with
           | CStr s => ret (pretty (Z.abs (py_hash env (basename s))))
           | CDict kv =>
               match List.last (Some <$> kv.*2) None with
               | Some v => ret v
               | None => raise UnboundLocalError
               end
           end) c1 = (Ok h, c1)) as ->.
  { destruct item as [s|kv]; cbn in Hid.
    - by injection Hid as <-.
    - by rewrite Hid. }
  unfold bind, mutate, modify, ret. cbn beta iota.
  do 2 eexists. split; [exact Hheap|]. split; [reflexivity|].
  cbn [heap set_heap msg_parts msg_alternative msg_preamble msg_attach
       alternative_attach msg_set_preamble].
  rewrite Ha, Hps, Href, Hheap.
  split; [|done].
  rewrite !(alter_app_r_alt _ (heap c) _ (length (heap c))) by lia.
  rewrite Nat.sub_diag. cbn [alter list_alter].
  f_equal. destruct m as [mm ms mn mh mp]. cbn in Hhdr. subst mh.
  reflexivity.
Qed.

(** The theorem at work on a local image file given with an explicit
    name. *)
Lemma image_item_embedded_witness :
  ∃ m msg c2,
    heap (_get_mime_object sample_env (CDict [("logo.png", "logo")]) open_session).2
    = heap open_session ++ [m]
    ∧ _prepare_message sample_env one_recipient None (Some (ContList [CDict [("logo.png", "logo")]]))
        false open_session = (Ok msg, c2)
    ∧ heap c2
      = heap open_session
        ++ [mkMime (mime_main m) (mime_sub m) (mime_name m)
              [("Content-ID", "<" +:+ "logo" +:+ ">");
               ("Content-Transfer-Encoding", "base64")]
              (b64encode sample_env (mime_payload m))]
    ∧ msg_parts msg = [length (heap open_session)]
    ∧ msg_alternative msg = [MIMEText (img_tag "logo") "html"]
    ∧ msg_preamble msg = Some preamble_notice.
Proof.
  apply (image_item_embedded sample_env open_session
           (_get_mime_object sample_env (CDict [("logo.png", "logo")]) open_session).2
           one_recipient None (CDict [("logo.png", "logo")])
           (mkContent 0 None "image" "png") "logo").
  - reflexivity.
  - vm_compute. reflexivity.
  - reflexivity.
  - reflexivity.
Defined.
